(** * The memory lifecycle of [examples/mem0_livekit_agent/mem0_agent.py]

    [MyAgent] keeps a per-session list of facts ([self.memories]) next to a
    remote Mem0 store.  The four coroutines of the class ([wipe_memories],
    [store_important_info], [on_enter], [on_exit]) are embedded below as
    programs of a small resumption monad: a coroutine runs on the shared
    agent object until it reaches an [await] of a Mem0 call, where it is
    suspended with its continuation; [try ... except Exception] is a
    handler on that monad. *)

From Stdlib Require Import String List Lia.
From stdpp Require Import base strings list gmap pretty.

Local Open Scope string_scope.
Local Open Scope list_scope.

(** ** Python values *)

(** Truth value of a [str] ([if not self.user_id]) and of a [list]
    ([if memories:]). *)
Definition truthy (s : string) : bool :=
  match s with EmptyString => false | String _ _ => true end.

Definition nonempty {A} (l : list A) : bool :=
  match l with [] => false | _ :: _ => true end.

(** [needle in hay] on [str]: the needle occurs as a contiguous run. *)
Fixpoint contains (needle hay : string) : bool :=
  String.prefix needle hay ||
  match hay with
  | EmptyString => false
  | String _ rest => contains needle rest
  end.

(** A dict with [str] keys and [str] values: the chat messages sent to
    Mem0, the filter clauses, and the records Mem0 returns. *)
Abbreviation dict := (gmap string string) (only parsing).

Definition has_key (k : string) (d : dict) : bool := bool_decide (is_Some (d !! k)).

(** A raised instance as the handlers see it: whether it is an instance
    of [Exception], which is what [except Exception] catches
    ([asyncio.CancelledError], [KeyboardInterrupt] and [SystemExit] are
    not); [str(e)]; and [e.__dict__] (rendered) when the instance has
    one. *)
Record exn := Raised { is_exception : bool; str : string; dict_of : option string }.

(** [e.__dict__ if hasattr(e, '__dict__') else str(e)] *)
Definition details (e : exn) : string :=
  match dict_of e with Some d => d | None => str e end.

Inductive outcome (A : Type) : Type :=
| Returns (a : A)
| Raises (e : exn).
Arguments Returns {A} a.
Arguments Raises {A} e.

(** ** The agent object, the session and the logger *)

Inductive level := DEBUG | INFO | ERROR.

(** [self.user_id], [self.memories], the instructions handed to
    [self.session.generate_reply], and the records given to [logger]. *)
Record agent := Agent {
  user_id : string;
  memories : list string;
  session : list string;
  logger : list (level * string)
}.

(** ** The Mem0 client *)

(** What [mem0.add] and [mem0.delete_all] return is only ever formatted
    into a debug record, so it is kept as that text. *)
Abbreviation opaque := string (only parsing).

Inductive request :=
| Add (messages : list dict) (uid : string) (version : option string)
| Get_all (filters : gmap string (list dict)) (version : option string)
| Delete_all (uid : string).

(** The client is an external service: any implementation with these three
    fallible calls, on any state of its own. *)
Class MemoryClient (St : Type) := {
  mem0_add : list dict -> string -> option string -> St -> outcome opaque * St;
  mem0_get_all : gmap string (list dict) -> option string -> St -> outcome (list dict) * St;
  mem0_delete_all : string -> St -> outcome opaque * St
}.

(** ** Coroutines *)

(** A coroutine that has run as far as it can: finished (returned or
    raised), or suspended at the [await] of a Mem0 call.  The continuation
    takes the outcome of the call and the agent object as it is when the
    coroutine is resumed. *)
Inductive coro (A : Type) : Type :=
| Done (r : outcome A) (self : agent)
| Await_add (messages : list dict) (uid : string) (version : option string)
    (self : agent) (k : outcome opaque -> agent -> coro A)
| Await_get_all (filters : gmap string (list dict)) (version : option string)
    (self : agent) (k : outcome (list dict) -> agent -> coro A)
| Await_delete_all (uid : string)
    (self : agent) (k : outcome opaque -> agent -> coro A).
Arguments Done {A} r self.
Arguments Await_add {A} messages uid version self k.
Arguments Await_get_all {A} filters version self k.
Arguments Await_delete_all {A} uid self k.

Definition M (A : Type) : Type := agent -> coro A.

Fixpoint bind_coro {A B} (t : coro A) (f : A -> M B) : coro B :=
  match t with
  | Done (Returns a) self => f a self
  | Done (Raises e) self => Done (Raises e) self
  | Await_add m u v self k => Await_add m u v self (fun o s => bind_coro (k o s) f)
  | Await_get_all q v self k => Await_get_all q v self (fun o s => bind_coro (k o s) f)
  | Await_delete_all u self k => Await_delete_all u self (fun o s => bind_coro (k o s) f)
  end.

(** [try: ... except Exception as e: ...]: what is raised and is not an
    [Exception] passes through. *)
Fixpoint catch_coro {A} (t : coro A) (handler : exn -> M A) : coro A :=
  match t with
  | Done (Returns a) self => Done (Returns a) self
  | Done (Raises e) self =>
      if is_exception e then handler e self else Done (Raises e) self
  | Await_add m u v self k => Await_add m u v self (fun o s => catch_coro (k o s) handler)
  | Await_get_all q v self k => Await_get_all q v self (fun o s => catch_coro (k o s) handler)
  | Await_delete_all u self k => Await_delete_all u self (fun o s => catch_coro (k o s) handler)
  end.

Definition ret {A} (a : A) : M A := fun self => Done (Returns a) self.
Definition bind {A B} (m : M A) (f : A -> M B) : M B := fun self => bind_coro (m self) f.
Definition try_except {A} (body : M A) (handler : exn -> M A) : M A :=
  fun self => catch_coro (body self) handler.

Declare Scope coro_scope.
Delimit Scope coro_scope with coro.
Notation "x <- c ;; k" := (bind c (fun x => k))
  (at level 100, c at next level, right associativity) : coro_scope.
Notation "c ;; k" := (bind c (fun _ => k))
  (at level 100, right associativity) : coro_scope.
Local Open Scope coro_scope.

(** Reading a field of [self], an f-string over [self]. *)
Definition read {A} (field : agent -> A) : M A := fun self => Done (Returns (field self)) self.

(** [self.memories = l] *)
Definition set_memories (l : list string) : M unit :=
  fun self => Done (Returns tt) (Agent (user_id self) l (session self) (logger self)).

(** [self.memories.append(x)] *)
Definition memories_append (x : string) : M unit :=
  fun self => Done (Returns tt) (Agent (user_id self) (memories self ++ [x]) (session self) (logger self)).

(** [self.session.generate_reply(instructions=...)] *)
Definition generate_reply (instructions : agent -> string) : M unit :=
  fun self => Done (Returns tt)
    (Agent (user_id self) (memories self) (session self ++ [instructions self]) (logger self)).

(** [logger.debug], [logger.info], [logger.error] *)
Definition log (l : level) (text : agent -> string) : M unit :=
  fun self => Done (Returns tt)
    (Agent (user_id self) (memories self) (session self) (logger self ++ [(l, text self)])).

(** [await mem0.add(...)], [await mem0.get_all(...)], [await mem0.delete_all(...)] *)
Definition await_add (messages : list dict) (uid : string) (version : option string) : M opaque :=
  fun self => Await_add messages uid version self (fun o s => Done o s).
Definition await_get_all (filters : gmap string (list dict)) (version : option string) : M (list dict) :=
  fun self => Await_get_all filters version self (fun o s => Done o s).
Definition await_delete_all (uid : string) : M opaque :=
  fun self => Await_delete_all uid self (fun o s => Done o s).

(** [for x in l: body] *)
Fixpoint for_each {A} (l : list A) (body : A -> M unit) : M unit :=
  match l with
  | [] => ret tt
  | x :: rest => body x ;; for_each rest body
  end.

(** ** Running a coroutine to completion against a client *)

(** What a run leaves behind: the value returned (or the exception that
    escaped), the agent object, the client, and the Mem0 calls made, each
    with the exception it raised, if any. *)
Record ran (A St : Type) := Ran {
  returned : outcome A;
  self_after : agent;
  store_after : St;
  calls : list (request * option exn)
}.
Arguments Ran {A St} returned self_after store_after calls.
Arguments returned {A St} r.
Arguments self_after {A St} r.
Arguments store_after {A St} r.
Arguments calls {A St} r.

Definition failure {A} (o : outcome A) : option exn :=
  match o with Returns _ => None | Raises e => Some e end.

Definition after_call {A St} (c : request * option exn) (r : ran A St) : ran A St :=
  Ran (returned r) (self_after r) (store_after r) (c :: calls r).

(** With one coroutine on the event loop, nothing else touches the agent
    while it is suspended: it is resumed on the object it left. *)
Fixpoint run {A St} `{MemoryClient St} (t : coro A) (σ : St) : ran A St :=
  match t with
  | Done r self => Ran r self σ []
  | Await_add m u v self k =>
      let (o, σ') := mem0_add m u v σ in
      after_call (Add m u v, failure o) (run (k o self) σ')
  | Await_get_all q v self k =>
      let (o, σ') := mem0_get_all q v σ in
      after_call (Get_all q v, failure o) (run (k o self) σ')
  | Await_delete_all u self k =>
      let (o, σ') := mem0_delete_all u σ in
      after_call (Delete_all u, failure o) (run (k o self) σ')
  end.

(** ** [class MyAgent] *)

(** [MyAgent.__init__(username)] *)
Definition init (username : option string) : agent :=
  let user_id :=
    match username with
    | Some u => if truthy u then u else "default_user"
    | None => "default_user"
    end in
  Agent user_id [] [] [(INFO, "Initialized agent for user: " +:+ user_id)].

Definition wipe_memories : M string :=
  try_except
    (uid <- read user_id ;;
     if negb (truthy uid) then
       log ERROR (fun _ => "No user_id available for wiping memories") ;;
       ret "I had trouble clearing my memories - no user identified"
     else
       log INFO (fun self => "Attempting to delete all memories for user: " +:+ user_id self) ;;
       uid <- read user_id ;;
       await_delete_all uid ;;
       set_memories [] ;;
       log INFO (fun self => "Successfully wiped memories for user: " +:+ user_id self) ;;
       ret "I've cleared all my memories. We can start fresh!")
    (fun e =>
       log ERROR (fun self => "Error wiping memories for user " +:+ user_id self +:+ ": " +:+ str e) ;;
       log ERROR (fun _ => "Full error details: " +:+ details e) ;;
       ret "I had trouble clearing my memories. Please try again.").

Section Rendering.

(** Two built-ins are left to the interpreter: [str.lower] (Unicode case
    mapping) and the text an f-string gives for a list of dicts. *)
Variable lower : string -> string.
Variable repr : list dict -> string.

Definition store_important_info (info category : string) : M string :=
  try_except
    (uid <- read user_id ;;
     if negb (truthy uid) then
       log ERROR (fun _ => "No user_id available for storing information") ;;
       ret "I had trouble storing that information - no user identified"
     else
       log INFO (fun self => "Storing important information for user " +:+ user_id self +:+ ": " +:+ info) ;;
       let messages : list dict := [ {[ "role" := "assistant"; "content" := info ]} ] in
       log DEBUG (fun _ => "Attempting to store memory with data: " +:+ repr messages) ;;
       uid <- read user_id ;;
       result <- await_add messages uid (Some "v2") ;;
       log DEBUG (fun _ => "Memory storage result: " +:+ result) ;;
       memories_append info ;;
       ret ("Stored important information about " +:+ category))
    (fun e =>
       log ERROR (fun self => "Error storing important information for user " +:+ user_id self +:+ ": " +:+ str e) ;;
       log ERROR (fun _ => "Full error details: " +:+ details e) ;;
       ret "I had trouble storing that information").

Definition first_time : string :=
  "Greet the user and say: I'm glad we're talking for the first time! I'm excited to help you plan your dream trip.".

Definition keywords : list string := ["trip"; "travel"; "vacation"; "cruise"; "backpacking"].

(** [any(word in m.lower() for word in [...])] *)
Definition trip_related (m : string) : bool :=
  existsb (fun word => contains word (lower m)) keywords.

(** [[memory["memory"] for memory in memories if "memory" in memory]]; the
    subscript cannot miss under the guard. *)
Definition memory_texts (records : list dict) : list string :=
  flat_map (fun memory : dict =>
              if has_key "memory" memory
              then match memory !! "memory" with Some text => [text] | None => [] end
              else []) records.

(** The local variable [memories] of the source is [records] here; the
    name [memories] is kept for the field [self.memories]. *)
Definition on_enter : M unit :=
  try_except
    (uid <- read user_id ;;
     if negb (truthy uid) then
       log ERROR (fun _ => "No user_id available for loading memories") ;;
       generate_reply (fun _ => first_time)
     else
       log INFO (fun self => "Attempting to load memories for user: " +:+ user_id self) ;;
       uid <- read user_id ;;
       records <- await_get_all {[ "AND" := [ ({[ "user_id" := uid ]} : dict) ] ]} (Some "v2") ;;
       if nonempty records then
         log DEBUG (fun _ => "Retrieved memories: " +:+ repr records) ;;
         set_memories (memory_texts records) ;;
         log INFO (fun self => "Successfully loaded " +:+ pretty (length (memories self))
                               +:+ " previous memories for user " +:+ user_id self) ;;
         loaded <- read memories ;;
         if nonempty loaded then
           let summary := "I remember our previous conversation about your trip plans. " in
           trip_memories <- read (fun self => List.filter trip_related (memories self)) ;;
           let summary :=
             match trip_memories with
             | latest_memory :: _ =>
                 summary +:+ "You were planning to " +:+ lower latest_memory
                         +:+ ". Would you like to continue planning this trip?"
             | [] => summary +:+ "Let's continue planning your adventure!"
             end in
           generate_reply (fun self => "Greet " +:+ user_id self +:+ " and say: " +:+ summary)
         else
           log INFO (fun self => "No valid memories found for user " +:+ user_id self) ;;
           generate_reply (fun _ => first_time)
       else
         log INFO (fun self => "No previous memories found for user " +:+ user_id self) ;;
         generate_reply (fun _ => first_time))
    (fun e =>
       log ERROR (fun self => "Error loading memories for user " +:+ user_id self +:+ ": " +:+ str e) ;;
       log ERROR (fun _ => "Full error details: " +:+ details e) ;;
       set_memories [] ;;
       generate_reply (fun _ => first_time)).

Definition on_exit : M unit :=
  try_except
    (cached <- read memories ;;
     if nonempty cached then
       log INFO (fun self => "Final memory check - storing " +:+ pretty (length (memories self)) +:+ " memories") ;;
       cached <- read memories ;;
       for_each cached (fun memory =>
         uid <- read user_id ;;
         await_add [ ({[ "role" := "assistant"; "content" := memory ]} : dict) ] uid None ;;
         ret tt)
     else ret tt)
    (fun e => log ERROR (fun _ => "Error in final memory storage: " +:+ str e)).

End Rendering.

(** ** A scripted client and ASCII text, for running the agent *)

Definition lower_ascii (c : Ascii.ascii) : Ascii.ascii :=
  let n := Ascii.N_of_ascii c in
  if ((65 <=? n) && (n <=? 90))%N then Ascii.ascii_of_N (n + 32) else c.

Fixpoint ascii_lower (s : string) : string :=
  match s with
  | EmptyString => EmptyString
  | String c rest => String (lower_ascii c) (ascii_lower rest)
  end.

Definition count_repr (l : list dict) : string := "[" +:+ pretty (length l) +:+ " dicts]".

(** Replies fixed in advance: what [add] answers for a given message list,
    what [get_all] and [delete_all] answer. *)
Record scripted := Scripted {
  on_add : list dict -> outcome opaque;
  on_get_all : outcome (list dict);
  on_delete_all : outcome opaque
}.

#[export] Instance scripted_client : MemoryClient scripted := {
  mem0_add m _ _ σ := (on_add σ m, σ);
  mem0_get_all _ _ σ := (on_get_all σ, σ);
  mem0_delete_all _ σ := (on_delete_all σ, σ)
}.

Definition timed_out : exn := Raised true "timed out" (Some "{}").


Definition reliable : scripted :=
  Scripted (fun _ => Returns "ok") (Returns []) (Returns "ok").

Definition unreachable : scripted :=
  Scripted (fun _ => Raises timed_out) (Raises timed_out) (Raises timed_out).


Definition holding (records : list dict) : scripted :=
  Scripted (fun _ => Returns "ok") (Returns records) (Returns "ok").

Definition rejecting (fact : string) : scripted :=
  Scripted (fun m => if bool_decide (m = [ {[ "role" := "assistant"; "content" := fact ]} ])
                     then Raises timed_out else Returns "ok")
           (Returns []) (Returns "ok").

Definition ann : agent := init (Some "ann").

(** A client that keeps what it is sent: [add] files the content of each
    message as a record, [get_all] returns the records, [delete_all] drops
    them. None of its calls raises. *)
Record keeping := Keeping { kept : list dict }.

#[export] Instance keeping_client : MemoryClient keeping := {
  mem0_add m _ _ σ :=
    (Returns "ok",
     Keeping (kept σ ++ omap (fun d : dict => (fun text => {[ "memory" := text ]}) <$> d !! "content") m));
  mem0_get_all _ _ σ := (Returns (kept σ), σ);
  mem0_delete_all _ σ := (Returns "ok", Keeping [])
}.

Definition nobody : agent := Agent EmptyString ["likes Rome"] [] [].

(** ** Running sequences and handlers *)

Definition then_run {A B St} (r : ran A St) (next : A -> agent -> St -> ran B St) : ran B St :=
  match returned r with
  | Returns a =>
      let r' := next a (self_after r) (store_after r) in
      Ran (returned r') (self_after r') (store_after r') (calls r ++ calls r')
  | Raises e => Ran (Raises e) (self_after r) (store_after r) (calls r)
  end.

Definition else_run {A St} (r : ran A St) (handler : exn -> agent -> St -> ran A St) : ran A St :=
  match returned r with
  | Returns a => r
  | Raises e =>
      if is_exception e then
        let r' := handler e (self_after r) (store_after r) in
        Ran (returned r') (self_after r') (store_after r') (calls r ++ calls r')
      else r
  end.

(** ** Vocabulary of the statements *)



(** The one chat message [store_important_info] and [on_exit] send for a fact. *)
Definition fact_message (fact : string) : list dict :=
  [ {[ "role" := "assistant"; "content" := fact ]} ].

(** The filter [on_enter] passes to [get_all]. *)
Definition user_filters (uid : string) : gmap string (list dict) :=
  {[ "AND" := [ {[ "user_id" := uid ]} ] ]}.

(** A fact mentions travel when one of the keywords occurs in its
    lower-cased text. *)
Definition mentions_travel (lower : string -> string) (m : string) : Prop :=
  exists word before after, In word keywords /\ lower m = before +:+ word +:+ after.

(** The greeting [on_enter] hands to the session for the facts it loaded. *)
Definition greeting (lower : string -> string) (uid : string) (facts : list string) : string :=
  match facts with
  | [] => first_time
  | _ :: _ =>
      "Greet " +:+ uid +:+ " and say: I remember our previous conversation about your trip plans. " +:+
      match List.filter (trip_related lower) facts with
      | latest :: _ => "You were planning to " +:+ lower latest +:+ ". Would you like to continue planning this trip?"
      | [] => "Let's continue planning your adventure!"
      end
  end.

(** ** Several tool calls in flight on one event loop *)

(** The function-calling channel may start a tool coroutine while earlier
    ones are still suspended.  All of them run on the one event loop and
    share the agent object: a coroutine runs without interruption from one
    [await] to the next, and is resumed when the reply to its own request
    arrives. *)
Module Loop.

Inductive task :=
| Finished (r : outcome string)
| Waiting (c : request) (k : outcome opaque -> agent -> coro string)
| Waiting_records (c : request) (k : outcome (list dict) -> agent -> coro string).

Record loop := Loop {
  self : agent;
  tasks : list task;
  issued : list request
}.

Inductive event :=
| Call (tool : M string)
| Completes (i : nat) (o : outcome opaque)
| Completes_records (i : nat) (o : outcome (list dict)).

(** The coroutine has run up to its next suspension: the agent object it
    leaves behind, what it now waits for, and the request it has sent. *)
Definition settle (t : coro string) : agent * task * list request :=
  match t with
  | Done r s => (s, Finished r, [])
  | Await_add m u v s k => (s, Waiting (Add m u v) k, [Add m u v])
  | Await_get_all q v s k => (s, Waiting_records (Get_all q v) k, [Get_all q v])
  | Await_delete_all u s k => (s, Waiting (Delete_all u) k, [Delete_all u])
  end.

Definition step (l : loop) (ev : event) : loop :=
  match ev with
  | Call tool =>
      let '(s, t, cs) := settle (tool (self l)) in
      Loop s (tasks l ++ [t]) (issued l ++ cs)
  | Completes i o =>
      match tasks l !! i with
      | Some (Waiting _ k) =>
          let '(s, t, cs) := settle (k o (self l)) in
          Loop s (<[i := t]> (tasks l)) (issued l ++ cs)
      | _ => l
      end
  | Completes_records i o =>
      match tasks l !! i with
      | Some (Waiting_records _ k) =>
          let '(s, t, cs) := settle (k o (self l)) in
          Loop s (<[i := t]> (tasks l)) (issued l ++ cs)
      | _ => l
      end
  end.

Definition exec (evs : list event) (l : loop) : loop := fold_left step evs l.

End Loop.

(** A suspended tool call that will append [info] to the cache, and return,
    once its request returns. *)
Definition appends_on_return (info : string) (t : Loop.task) : Prop :=
  exists c k, t = Loop.Waiting c k /\
    forall (x : string) (s : agent), exists s' ack,
      k (Returns x) s = Done (Returns ack) s' /\
      memories s' = memories s ++ [info] /\ user_id s' = user_id s.

(** A suspended [store_important_info]: once the reply to its request
    arrives it is finished, having appended [info] when the request
    returned and nothing when it raised. *)
Definition settles_store (info : string) (t : Loop.task) : Prop :=
  exists c k, t = Loop.Waiting c k /\
    (forall (x : string) (s : agent), exists s' text,
       k (Returns x) s = Done (Returns text) s' /\
       memories s' = memories s ++ [info] /\ user_id s' = user_id s) /\
    (forall (e : exn) (s : agent), exists s' r,
       k (Raises e) s = Done r s' /\
       memories s' = memories s /\ user_id s' = user_id s).

(** The fact a reply lets into the cache: the one of the call it answers,
    when the request returned. *)
Definition admitted (invs : list (string * string)) (reply : nat * outcome string) : option string :=
  match reply.2 with
  | Returns _ => fst <$> invs !! reply.1
  | Raises _ => None
  end.

(** ** A session: the hooks and the tools called one after the other *)

(** The host calls [on_enter] when the session starts and [on_exit] when it
    ends; in between the function-calling channel calls the two tools.
    Here each call has finished, by returning or by raising, before the
    next one starts. *)
Inductive invocation :=
| Enter
| Store (info category : string)
| Wipe
| Exit.

(** What a sequence of calls leaves behind: what each call gave back to
    its caller (the text of a tool, nothing for a hook, or what it
    raised), the agent object, the client, and the Mem0 calls made. *)
Record told (St : Type) := Told {
  answers : list (outcome (option string));
  agent_after : agent;
  client_after : St;
  requests : list (request * option exn)
}.
Arguments Told {St} answers agent_after client_after requests.
Arguments answers {St} t.
Arguments agent_after {St} t.
Arguments client_after {St} t.
Arguments requests {St} t.

Definition answer {A} (text : A -> option string) (o : outcome A) : outcome (option string) :=
  match o with Returns a => Returns (text a) | Raises e => Raises e end.

Definition answered {A St} (text : A -> option string) (r : ran A St) : ran (option string) St :=
  Ran (answer text (returned r)) (self_after r) (store_after r) (calls r).

Section Session.
Context {St : Type} `{MemoryClient St}.
Variable lower : string -> string.
Variable repr : list dict -> string.

Definition perform (i : invocation) (a : agent) (σ : St) : ran (option string) St :=
  match i with
  | Enter => answered (fun _ => None) (run (on_enter lower repr a) σ)
  | Store info category => answered Some (run (store_important_info repr info category a) σ)
  | Wipe => answered Some (run (wipe_memories a) σ)
  | Exit => answered (fun _ => None) (run (on_exit a) σ)
  end.

Fixpoint run_session (invs : list invocation) (a : agent) (σ : St) : told St :=
  match invs with
  | [] => Told [] a σ []
  | i :: rest =>
      let r := perform i a σ in
      let t := run_session rest (self_after r) (store_after r) in
      Told (returned r :: answers t) (agent_after t) (client_after t) (calls r ++ requests t)
  end.

End Session.

(** The request is for the partition of [uid]. *)
Definition targets (uid : string) (c : request) : Prop :=
  match c with
  | Add _ u _ => u = uid
  | Get_all q _ => q = user_filters uid
  | Delete_all u => u = uid
  end.

Definition is_delete (c : request) : bool :=
  match c with Delete_all _ => true | _ => false end.

Definition is_wipe (i : invocation) : bool :=
  match i with Wipe => true | _ => false end.

Definition is_enter (i : invocation) : bool :=
  match i with Enter => true | _ => false end.

Definition is_returned {A} (o : outcome A) : bool :=
  match o with Returns _ => true | Raises _ => false end.

Definition is_add (c : request) : bool :=
  match c with Add _ _ _ => true | _ => false end.

Definition unidentified : list string :=
  ["I had trouble storing that information - no user identified";
   "I had trouble clearing my memories - no user identified"].

(** A client whose [add] always returns. *)
Definition add_always_returns {St} `{MemoryClient St} : Prop :=
  forall m u v (σ : St), exists x σ', mem0_add m u v σ = (Returns x, σ').

Section Against_a_client.
Context {St : Type} `{MemoryClient St}.

Lemma ran_eta {A} (r : ran A St) :
  Ran (returned r) (self_after r) (store_after r) (calls r) = r.
Proof. by destruct r. Qed.

Lemma run_bind_coro {A B} (t : coro A) (f : A -> M B) (σ : St) :
  run (bind_coro t f) σ = then_run (run t σ) (fun a self σ' => run (f a self) σ').
Proof.
  revert σ. induction t as [[a|e] self|m u v self k IH|q v self k IH|u self k IH]; intros σ; simpl.
  - unfold then_run; simpl. by rewrite ran_eta.
  - done.
  - destruct (mem0_add m u v σ) as [o σ']. rewrite IH. unfold then_run, after_call; simpl.
    by destruct (run (k o self) σ') as [[a|e] s2 σ2 cs].
  - destruct (mem0_get_all q v σ) as [o σ']. rewrite IH. unfold then_run, after_call; simpl.
    by destruct (run (k o self) σ') as [[a|e] s2 σ2 cs].
  - destruct (mem0_delete_all u σ) as [o σ']. rewrite IH. unfold then_run, after_call; simpl.
    by destruct (run (k o self) σ') as [[a|e] s2 σ2 cs].
Qed.

Lemma run_catch_coro {A} (t : coro A) (handler : exn -> M A) (σ : St) :
  run (catch_coro t handler) σ = else_run (run t σ) (fun e self σ' => run (handler e self) σ').
Proof.
  revert σ. induction t as [[a|e] self|m u v self k IH|q v self k IH|u self k IH]; intros σ; simpl.
  - done.
  - unfold else_run; simpl. destruct (is_exception e); [by rewrite ran_eta | done].
  - destruct (mem0_add m u v σ) as [o σ']. rewrite IH. unfold else_run, after_call; simpl.
    destruct (run (k o self) σ') as [[a|e] s2 σ2 cs]; simpl; [done|].
    by destruct (is_exception e).
  - destruct (mem0_get_all q v σ) as [o σ']. rewrite IH. unfold else_run, after_call; simpl.
    destruct (run (k o self) σ') as [[a|e] s2 σ2 cs]; simpl; [done|].
    by destruct (is_exception e).
  - destruct (mem0_delete_all u σ) as [o σ']. rewrite IH. unfold else_run, after_call; simpl.
    destruct (run (k o self) σ') as [[a|e] s2 σ2 cs]; simpl; [done|].
    by destruct (is_exception e).
Qed.

(** *** The two tools *)

Variable lower : string -> string.
Variable repr : list dict -> string.

(** C2. With a user id set, [wipe_memories] issues one [delete_all]; the
    cache is emptied and the success text returned exactly when that call
    returns, and when it raises the cache is the one held before and the
    apology is returned; what it raises outside [Exception] is passed on,
    the cache being the one held before. *)
Theorem wipe_memories_gated_on_delete (σ : St) (self : agent) :
  truthy (user_id self) = true ->
  let r := run (wipe_memories self) σ in
  (calls r = [(Delete_all (user_id self), None)] /\
   memories (self_after r) = [] /\
   returned r = Returns "I've cleared all my memories. We can start fresh!")
  \/
  (exists e, is_exception e = true /\
   calls r = [(Delete_all (user_id self), Some e)] /\
   memories (self_after r) = memories self /\
   returned r = Returns "I had trouble clearing my memories. Please try again.")
  \/
  (exists e, is_exception e = false /\
   calls r = [(Delete_all (user_id self), Some e)] /\
   memories (self_after r) = memories self /\
   returned r = Raises e).
Proof.
  intros Hu. unfold wipe_memories, try_except, bind, read. cbn. rewrite Hu. cbn.
  destruct (mem0_delete_all (user_id self) σ) as [[x|e] σ']; cbn; [eauto|].
  destruct (is_exception e) eqn:He; cbn; eauto 8.
Qed.

(** C1, as the code has it. With a user id set, [store_important_info]
    issues one [add]; the fact is appended to the cache when that call
    returns, and when it raises the cache is left as it was and an apology
    is returned; what it raises outside [Exception] is passed on, the
    cache left as it was. *)
Theorem store_appends_when_add_returns (σ : St) (self : agent) (info category : string) :
  truthy (user_id self) = true ->
  let r := run (store_important_info repr info category self) σ in
  (calls r = [(Add (fact_message info) (user_id self) (Some "v2"), None)] /\
   memories (self_after r) = memories self ++ [info] /\
   returned r = Returns ("Stored important information about " +:+ category))
  \/
  (exists e, is_exception e = true /\
   calls r = [(Add (fact_message info) (user_id self) (Some "v2"), Some e)] /\
   memories (self_after r) = memories self /\
   returned r = Returns "I had trouble storing that information")
  \/
  (exists e, is_exception e = false /\
   calls r = [(Add (fact_message info) (user_id self) (Some "v2"), Some e)] /\
   memories (self_after r) = memories self /\
   returned r = Raises e).
Proof.
  intros Hu. unfold store_important_info, try_except, bind, read. cbn. rewrite Hu. cbn.
  destruct (mem0_add _ (user_id self) (Some "v2") σ) as [[x|e] σ']; cbn; [eauto|].
  destruct (is_exception e) eqn:He; cbn; eauto 8.
Qed.


(** C7. When the [add] of [store_important_info] returns, the one request
    sent carries the fact as its only message, and the category shows in
    the returned acknowledgment only: with any other category the request,
    the agent and the client end up the same. *)
Theorem category_only_in_acknowledgment
    (σ σ' : St) (self : agent) (info category : string) (x : string) :
  truthy (user_id self) = true ->
  mem0_add (fact_message info) (user_id self) (Some "v2") σ = (Returns x, σ') ->
  let r := run (store_important_info repr info category self) σ in
  calls r = [(Add [ {[ "role" := "assistant"; "content" := info ]} ] (user_id self) (Some "v2"), None)] /\
  returned r = Returns ("Stored important information about " +:+ category) /\
  forall other : string,
    let r' := run (store_important_info repr info other self) σ in
    returned r' = Returns ("Stored important information about " +:+ other) /\
    calls r' = calls r /\ self_after r' = self_after r /\ store_after r' = store_after r.
Proof.
  intros Hu Hadd. unfold store_important_info, try_except, bind, read. cbn. rewrite Hu. cbn.
  unfold fact_message in Hadd. rewrite Hadd. cbn.
  split; [reflexivity|]. split; [reflexivity|]. intros other. cbn. auto.
Qed.

(** *** Text and list facts *)

Lemma append_cons (c : Ascii.ascii) (s t : string) : String c s +:+ t = String c (s +:+ t).
Proof. reflexivity. Qed.

Lemma prefix_spec (p s : string) :
  String.prefix p s = true <-> exists rest, s = p +:+ rest.
Proof.
  revert s. induction p as [|a p IH]; intros s.
  - split; [intros _; by exists s | intros _; by destruct s].
  - destruct s as [|b s]; simpl.
    + split; [done | intros [rest Hrest]; by rewrite append_cons in Hrest].
    + destruct (Ascii.ascii_dec a b) as [->|Hab].
      * rewrite IH. split; intros [rest Hrest]; exists rest; rewrite append_cons in *; congruence.
      * split; [done | intros [rest Hrest]; rewrite append_cons in Hrest; congruence].
Qed.

Lemma contains_spec (needle hay : string) :
  contains needle hay = true <-> exists before after, hay = before +:+ needle +:+ after.
Proof.
  induction hay as [|c hay IH].
  - change (contains needle EmptyString) with (String.prefix needle EmptyString || false).
    rewrite orb_true_iff, prefix_spec. split.
    + intros [[rest Hrest]|?]; [|done]. by exists EmptyString, rest.
    + intros ([|? ?] & after & Hsplit); [|by rewrite append_cons in Hsplit].
      left. by exists after.
  - change (contains needle (String c hay))
      with (String.prefix needle (String c hay) || contains needle hay).
    rewrite orb_true_iff, prefix_spec, IH. split.
    + intros [[rest Hrest]|(before & after & Hsplit)].
      * by exists EmptyString, rest.
      * exists (String c before), after. by rewrite append_cons, Hsplit.
    + intros ([|c' before] & after & Hsplit).
      * left. by exists after.
      * right. exists before, after. rewrite append_cons in Hsplit. congruence.
Qed.

Lemma trip_related_spec (m : string) :
  trip_related lower m = true <-> mentions_travel lower m.
Proof.
  unfold trip_related, mentions_travel. rewrite existsb_exists. split.
  - intros (word & Hin & Hc). apply contains_spec in Hc as (before & after & Hsplit). eauto.
  - intros (word & before & after & Hin & Hsplit). exists word. split; [done|].
    apply contains_spec. eauto.
Qed.

Lemma trip_related_false (m : string) :
  ~ mentions_travel lower m -> trip_related lower m = false.
Proof.
  intros Hno. destruct (trip_related lower m) eqn:E; [|done].
  by apply trip_related_spec in E.
Qed.

Lemma filter_no_match (l : list string) :
  Forall (fun x => ~ mentions_travel lower x) l -> List.filter (trip_related lower) l = [].
Proof.
  induction 1 as [|x l Hx _ IH]; simpl; [done|]. by rewrite trip_related_false.
Qed.

Lemma filter_first_match (before after : list string) (m : string) :
  mentions_travel lower m ->
  Forall (fun x => ~ mentions_travel lower x) before ->
  List.filter (trip_related lower) (before ++ m :: after)
  = m :: List.filter (trip_related lower) after.
Proof.
  intros Hm Hbefore. rewrite List.filter_app, filter_no_match by done. simpl.
  apply trip_related_spec in Hm. by rewrite Hm.
Qed.

Lemma memory_texts_no_field (records : list dict) :
  Forall (fun d : dict => d !! "memory" = None) records -> memory_texts records = [].
Proof.
  induction 1 as [|d l Hd _ IH]; simpl; [done|].
  rewrite Hd, IH. by destruct (has_key "memory" d).
Qed.

(** *** Loading at session start *)

Lemma run_on_enter_loaded (σ σ' : St) (self : agent) (records : list dict) :
  truthy (user_id self) = true ->
  mem0_get_all (user_filters (user_id self)) (Some "v2") σ = (Returns records, σ') ->
  let r := run (on_enter lower repr self) σ in
  returned r = Returns tt /\
  store_after r = σ' /\
  user_id (self_after r) = user_id self /\
  memories (self_after r) = (if nonempty records then memory_texts records else memories self) /\
  session (self_after r) = session self ++ [greeting lower (user_id self) (memory_texts records)].
Proof.
  intros Hu Hget. unfold on_enter, try_except, bind, read. cbn. rewrite Hu. cbn.
  unfold user_filters in Hget. rewrite Hget. cbn.
  destruct (nonempty records) eqn:Hne; cbn.
  - destruct (memory_texts records) as [|f fs] eqn:Hf; cbn; [done|].
    repeat (split; [reflexivity|]). do 2 f_equal.
    match goal with
    | |- context [match ?found with [] => _ | _ :: _ => _ end] => by destruct found
    end.
  - by destruct records.
Qed.

Lemma run_on_enter_failed (σ σ' : St) (self : agent) (e : exn) :
  truthy (user_id self) = true ->
  mem0_get_all (user_filters (user_id self)) (Some "v2") σ = (Raises e, σ') ->
  is_exception e = true ->
  let r := run (on_enter lower repr self) σ in
  returned r = Returns tt /\
  store_after r = σ' /\
  user_id (self_after r) = user_id self /\
  memories (self_after r) = [] /\
  session (self_after r) = session self ++ [first_time].
Proof.
  intros Hu Hget He. unfold on_enter, try_except, bind, read. cbn. rewrite Hu. cbn.
  unfold user_filters in Hget. rewrite Hget. cbn. rewrite He. by cbn.
Qed.

Lemma run_on_enter_escapes (σ σ' : St) (self : agent) (e : exn) :
  truthy (user_id self) = true ->
  mem0_get_all (user_filters (user_id self)) (Some "v2") σ = (Raises e, σ') ->
  is_exception e = false ->
  let r := run (on_enter lower repr self) σ in
  returned r = Raises e /\
  store_after r = σ' /\
  user_id (self_after r) = user_id self /\
  memories (self_after r) = memories self /\
  session (self_after r) = session self.
Proof.
  intros Hu Hget He. unfold on_enter, try_except, bind, read. cbn. rewrite Hu. cbn.
  unfold user_filters in Hget. rewrite Hget. cbn. rewrite He. by cbn.
Qed.

Lemma run_on_enter_unset (σ : St) (self : agent) :
  truthy (user_id self) = false ->
  let r := run (on_enter lower repr self) σ in
  returned r = Returns tt /\
  store_after r = σ /\
  user_id (self_after r) = user_id self /\
  memories (self_after r) = memories self /\
  session (self_after r) = session self ++ [first_time].
Proof.
  intros Hu. unfold on_enter, try_except, bind, read. cbn. rewrite Hu. by cbn.
Qed.

(** C3. When the load returns, the greeting follows the facts taken from
    the records: the first fact, in the order of the records, that
    mentions travel is quoted lower-cased; facts none of which mentions
    travel give the continue-planning greeting; no facts give the
    first-time greeting. *)
Theorem on_enter_greets_by_facts (σ σ' : St) (self : agent) (records : list dict) :
  truthy (user_id self) = true ->
  mem0_get_all (user_filters (user_id self)) (Some "v2") σ = (Returns records, σ') ->
  let facts := memory_texts records in
  let said := session (self_after (run (on_enter lower repr self) σ)) in
  (forall before m after,
      facts = before ++ m :: after ->
      mentions_travel lower m ->
      Forall (fun x => ~ mentions_travel lower x) before ->
      said = session self ++
        ["Greet " +:+ user_id self +:+
         " and say: I remember our previous conversation about your trip plans. You were planning to "
         +:+ lower m +:+ ". Would you like to continue planning this trip?"]) /\
  (facts <> [] ->
   Forall (fun x => ~ mentions_travel lower x) facts ->
   said = session self ++
     ["Greet " +:+ user_id self +:+
      " and say: I remember our previous conversation about your trip plans. Let's continue planning your adventure!"]) /\
  (facts = [] -> said = session self ++ [first_time]).
Proof.
  intros Hu Hget facts said.
  destruct (run_on_enter_loaded σ σ' self records Hu Hget) as (_ & _ & _ & _ & Hsaid).
  fold facts in Hsaid. fold said in Hsaid. rewrite Hsaid. clear Hsaid said.
  split; [|split].
  - intros before m after Hsplit Hm Hbefore. unfold greeting.
    rewrite Hsplit, filter_first_match by done.
    by destruct before.
  - intros Hne Hnone. unfold greeting. rewrite filter_no_match by done.
    by destruct facts.
  - by intros ->.
Qed.

(** C4. When the [get_all] of [on_enter] raises an exception, [on_enter]
    returns normally, the cache is empty afterwards, and the session has
    been handed one more directive, the first-time greeting. *)
Theorem on_enter_absorbs_load_failure (σ σ' : St) (self : agent) (e : exn) :
  truthy (user_id self) = true ->
  mem0_get_all (user_filters (user_id self)) (Some "v2") σ = (Raises e, σ') ->
  is_exception e = true ->
  let r := run (on_enter lower repr self) σ in
  returned r = Returns tt /\
  memories (self_after r) = [] /\
  session (self_after r) = session self ++ [first_time].
Proof.
  intros Hu Hget He.
  destruct (run_on_enter_failed σ σ' self e Hu Hget He) as (? & _ & _ & ? & ?).
  auto.
Qed.

(** C8. If the client answers the [get_all] of a second [on_enter] as it
    answered the first, the cache after the second load is the cache after
    the first. *)
Theorem load_twice_same_cache (σ σ1 σ2 : St) (self : agent) (o : outcome (list dict)) :
  mem0_get_all (user_filters (user_id self)) (Some "v2") σ = (o, σ1) ->
  mem0_get_all (user_filters (user_id self)) (Some "v2") σ1 = (o, σ2) ->
  let r1 := run (on_enter lower repr self) σ in
  let r2 := run (on_enter lower repr (self_after r1)) (store_after r1) in
  memories (self_after r2) = memories (self_after r1).
Proof.
  intros Hfirst Hsecond r1 r2. subst r2.
  destruct (truthy (user_id self)) eqn:Hu.
  - destruct o as [records|e].
    + destruct (run_on_enter_loaded σ σ1 self records Hu Hfirst) as (_ & Hσ & Hid & Hmem & _).
      fold r1 in Hσ, Hid, Hmem. rewrite <- Hσ, <- Hid in Hsecond. rewrite <- Hid in Hu.
      destruct (run_on_enter_loaded _ σ2 _ records Hu Hsecond) as (_ & _ & _ & Hmem2 & _).
      rewrite Hmem2, Hmem. by destruct (nonempty records).
    + destruct (is_exception e) eqn:He.
      * destruct (run_on_enter_failed σ σ1 self e Hu Hfirst He) as (_ & Hσ & Hid & Hmem & _).
        fold r1 in Hσ, Hid, Hmem. rewrite <- Hσ, <- Hid in Hsecond. rewrite <- Hid in Hu.
        destruct (run_on_enter_failed _ σ2 _ e Hu Hsecond He) as (_ & _ & _ & Hmem2 & _).
        by rewrite Hmem2, Hmem.
      * destruct (run_on_enter_escapes σ σ1 self e Hu Hfirst He) as (_ & Hσ & Hid & Hmem & _).
        fold r1 in Hσ, Hid, Hmem. rewrite <- Hσ, <- Hid in Hsecond. rewrite <- Hid in Hu.
        destruct (run_on_enter_escapes _ σ2 _ e Hu Hsecond He) as (_ & _ & _ & Hmem2 & _).
        by rewrite Hmem2.
  - destruct (run_on_enter_unset σ self Hu) as (_ & _ & Hid & Hmem & _).
    fold r1 in Hid, Hmem. rewrite <- Hid in Hu.
    destruct (run_on_enter_unset (store_after r1) _ Hu) as (_ & _ & _ & Hmem2 & _).
    by rewrite Hmem2.
Qed.

(** C10, as the code has it. When the load returns records, none of which
    has a ["memory"] field, the cache ends empty and the first-time
    greeting is handed to the session; a load that returns no record ends
    with the same greeting but leaves the cache as it was on entry, which
    is the same cache only when that was empty, as it is after
    [__init__]. *)
Theorem records_without_text_load_as_none
    (σ σ' σ0 σ0' : St) (self : agent) (records : list dict) :
  truthy (user_id self) = true ->
  mem0_get_all (user_filters (user_id self)) (Some "v2") σ = (Returns records, σ') ->
  records <> [] ->
  Forall (fun d : dict => d !! "memory" = None) records ->
  mem0_get_all (user_filters (user_id self)) (Some "v2") σ0 = (Returns [], σ0') ->
  let r := run (on_enter lower repr self) σ in
  let r0 := run (on_enter lower repr self) σ0 in
  returned r = Returns tt /\
  memories (self_after r) = [] /\
  session (self_after r) = session self ++ [first_time] /\
  returned r0 = returned r /\
  session (self_after r0) = session (self_after r) /\
  (memories self = [] -> memories (self_after r0) = memories (self_after r)) /\
  memories (self_after r0) = memories self.
Proof.
  intros Hu Hget Hne Hnone Hget0 r r0.
  destruct (run_on_enter_loaded σ σ' self records Hu Hget) as (Hret & _ & _ & Hmem & Hsaid).
  destruct (run_on_enter_loaded σ0 σ0' self [] Hu Hget0) as (Hret0 & _ & _ & Hmem0 & Hsaid0).
  fold r in Hret, Hmem, Hsaid. fold r0 in Hret0, Hmem0, Hsaid0.
  rewrite memory_texts_no_field in Hmem, Hsaid by done.
  destruct records as [|d l]; [done|]. simpl in *.
  rewrite Hret, Hret0, Hmem, Hmem0, Hsaid, Hsaid0. repeat split; auto.
Qed.

(** *** Flushing at session end *)

Lemma run_flush_loop (l : list string) (self : agent) (σ : St) :
  let r := run (for_each l (fun memory =>
                  uid <- read user_id ;;
                  await_add [ ({[ "role" := "assistant"; "content" := memory ]} : dict) ] uid None ;;
                  ret tt) self) σ in
  self_after r = self /\
  ((returned r = Returns tt /\
    calls r = map (fun fact => (Add (fact_message fact) (user_id self) None, None)) l)
   \/
   (exists before fact after e,
      l = before ++ fact :: after /\
      returned r = Raises e /\
      calls r = map (fun fact => (Add (fact_message fact) (user_id self) None, None)) before
                ++ [(Add (fact_message fact) (user_id self) None, Some e)])).
Proof.
  revert σ. induction l as [|fact l IH]; intros σ.
  - simpl. auto.
  - simpl. unfold bind at 1. unfold bind at 1. unfold read at 1. simpl.
    destruct (mem0_add _ (user_id self) None σ) as [[x|e] σ'] eqn:Hadd; simpl.
    + destruct (IH σ') as (Hself & [(Hret & Hcalls)|(before & f & after & e & Hl & Hret & Hcalls)]).
      * split; [done|]. left. split; [done|]. by rewrite Hcalls.
      * split; [done|]. right. exists (fact :: before), f, after, e.
        split; [by rewrite Hl|]. split; [done|]. by rewrite Hcalls.
    + split; [done|]. right. by exists [], fact, l, e.
Qed.

Lemma on_exit_empty (self : agent) :
  nonempty (memories self) = false -> on_exit self = Done (Returns tt) self.
Proof.
  intros Hne. unfold on_exit, try_except, bind, read. simpl. by rewrite Hne.
Qed.

Lemma on_exit_nonempty (self : agent) :
  nonempty (memories self) = true ->
  on_exit self =
  catch_coro
    (for_each (memories self) (fun memory =>
       uid <- read user_id ;;
       await_add [ ({[ "role" := "assistant"; "content" := memory ]} : dict) ] uid None ;;
       ret tt)
       (Agent (user_id self) (memories self) (session self)
          (logger self ++ [(INFO, "Final memory check - storing "
                                   +:+ pretty (length (memories self)) +:+ " memories")])))
    (fun e => log ERROR (fun _ => "Error in final memory storage: " +:+ str e)).
Proof.
  intros Hne. unfold on_exit, try_except, bind, read. simpl. by rewrite Hne.
Qed.

(** C5, as the code has it. [on_exit] leaves the cache as it is. It sends
    one [add] per cached fact, in cache order, until one of them raises:
    that ends the flush, so the facts after it are not sent. An
    [Exception] is logged and [on_exit] returns; what is raised outside
    [Exception] is passed on. When no [add] raises, every cached fact has
    been sent once, no error is logged and [on_exit] returns. *)
Theorem on_exit_flushes_until_failure (σ : St) (self : agent) :
  let r := run (on_exit self) σ in
  let sent fact := (Add (fact_message fact) (user_id self) None, @None exn) in
  memories (self_after r) = memories self /\
  ((returned r = Returns tt /\
    calls r = map sent (memories self) /\
    Forall (fun entry => fst entry <> ERROR) (skipn (length (logger self)) (logger (self_after r))))
   \/
   (exists before fact after e,
      memories self = before ++ fact :: after /\
      calls r = map sent before ++ [(Add (fact_message fact) (user_id self) None, Some e)] /\
      ((is_exception e = true /\
        returned r = Returns tt /\
        last (logger (self_after r)) = Some (ERROR, "Error in final memory storage: " +:+ str e))
       \/
       (is_exception e = false /\ returned r = Raises e)))).
Proof.
  intros r sent. subst r.
  destruct (nonempty (memories self)) eqn:Hne.
  - rewrite on_exit_nonempty by done. rewrite run_catch_coro.
    match goal with |- context [run (for_each ?l ?body ?s) σ] =>
      destruct (run_flush_loop l s σ) as (Hself & Hcases);
      destruct (run (for_each l body s) σ) as [o s' σ' cs] end.
    simpl in Hself, Hcases. subst s'.
    destruct Hcases as [(-> & ->)|(before & fact & after & e & Hmem & -> & ->)];
      unfold else_run; simpl.
    + split; [done|]. left. split; [done|]. split; [done|].
      rewrite drop_app_length. repeat constructor. done.
    + destruct (is_exception e) eqn:He; simpl.
      * split; [done|]. right. exists before, fact, after, e.
        split; [done|]. split; [by rewrite app_nil_r|]. left.
        split; [done|]. split; [done|]. by rewrite last_snoc.
      * split; [done|]. right. exists before, fact, after, e.
        split; [done|]. split; [done|]. by right.
  - rewrite on_exit_empty by done. simpl. split; [done|]. left. split; [done|].
    destruct (memories self); [|done]. split; [done|].
    rewrite skipn_all. constructor.
Qed.

End Against_a_client.

(** *** Tool calls in flight together *)

Section In_flight.
Variable repr : list dict -> string.

Lemma call_store (l : Loop.loop) (info category : string) :
  truthy (user_id (Loop.self l)) = true ->
  exists s t,
    Loop.step l (Loop.Call (store_important_info repr info category))
    = Loop.Loop s (Loop.tasks l ++ [t])
        (Loop.issued l ++ [Add (fact_message info) (user_id (Loop.self l)) (Some "v2")]) /\
    appends_on_return info t /\
    memories s = memories (Loop.self l) /\ user_id s = user_id (Loop.self l).
Proof.
  intros Hu. unfold Loop.step, store_important_info, try_except, bind, read. cbn.
  rewrite Hu. cbn. eexists _, _. split; [reflexivity|]. split; [|done].
  eexists _, _. split; [reflexivity|]. intros x s. cbn. eauto.
Qed.

Lemma calls_issued (invs : list (string * string)) (l : Loop.loop) :
  truthy (user_id (Loop.self l)) = true ->
  let l' := Loop.exec (map (fun inv => Loop.Call (store_important_info repr inv.1 inv.2)) invs) l in
  user_id (Loop.self l') = user_id (Loop.self l) /\
  memories (Loop.self l') = memories (Loop.self l) /\
  Loop.issued l' = Loop.issued l
    ++ map (fun inv => Add (fact_message inv.1) (user_id (Loop.self l)) (Some "v2")) invs /\
  exists ts, Loop.tasks l' = Loop.tasks l ++ ts /\
             Forall2 (fun inv t => appends_on_return inv.1 t) invs ts.
Proof.
  revert l. induction invs as [|inv invs IH]; intros l Hu; cbv zeta.
  - simpl. rewrite app_nil_r. repeat split; try done. exists []. by rewrite app_nil_r.
  - destruct (call_store l inv.1 inv.2 Hu) as (s & t & Hstep & Ht & Hmem & Hid).
    unfold Loop.exec in *. rewrite map_cons. cbn [fold_left]. rewrite Hstep.
    match goal with |- context [fold_left _ _ ?l1] =>
      destruct (IH l1) as (Hid' & Hmem' & Hissued & ts & Htasks & Hts) end.
    { simpl. by rewrite Hid. }
    simpl in *. rewrite Hid', Hmem', Hissued, Htasks, Hid, <- !app_assoc.
    repeat split; try done. exists (t :: ts). split; [done|]. by constructor.
Qed.

Lemma completions_append (fact_of : nat -> option string) (reply : nat -> string)
    (order : list nat) (l : Loop.loop) :
  NoDup order ->
  (forall i, i ∈ order ->
     match Loop.tasks l !! i with
     | Some t => exists info, fact_of i = Some info /\ appends_on_return info t
     | None => fact_of i = None
     end) ->
  let l' := Loop.exec (map (fun i => Loop.Completes i (Returns (reply i))) order) l in
  memories (Loop.self l') = memories (Loop.self l) ++ omap fact_of order /\
  Loop.issued l' = Loop.issued l.
Proof.
  revert l. induction order as [|i order IH]; intros l Hnodup Hinv; cbv zeta.
  - simpl. by rewrite app_nil_r.
  - change (omap fact_of (i :: order))
      with (match fact_of i with Some y => y :: omap fact_of order | None => omap fact_of order end).
    apply NoDup_cons in Hnodup as [Hi Hnodup].
    pose proof (Hinv i (list_elem_of_here _ _)) as Hthis.
    destruct (Loop.tasks l !! i) as [t|] eqn:Hlook.
    + destruct Hthis as (info & Hfact & c & k & -> & Hk).
      destruct (Hk (reply i) (Loop.self l)) as (s' & ack & Hrun & Hmem & _).
      assert (Loop.step l (Loop.Completes i (Returns (reply i)))
              = Loop.Loop s' (<[i := Loop.Finished (Returns ack)]> (Loop.tasks l)) (Loop.issued l))
        as Hstep.
      { unfold Loop.step. rewrite Hlook, Hrun. simpl. by rewrite app_nil_r. }
      unfold Loop.exec in *. rewrite map_cons. cbn [fold_left]. rewrite Hstep.
      match goal with |- context [fold_left _ _ ?l1] => destruct (IH l1 Hnodup) as [Hm Hiss] end.
      { intros j Hj. simpl. rewrite list_lookup_insert_ne by (intros ->; done).
        apply Hinv. by apply list_elem_of_further. }
      rewrite Hm, Hiss, Hfact. simpl. by rewrite Hmem, <- app_assoc.
    + assert (Loop.step l (Loop.Completes i (Returns (reply i))) = l) as Hstep.
      { unfold Loop.step. by rewrite Hlook. }
      unfold Loop.exec in *. rewrite map_cons. cbn [fold_left]. rewrite Hstep, Hthis.
      apply IH; [done|]. intros j Hj. apply Hinv. by apply list_elem_of_further.
Qed.

(** C9, as the code has it. Tool calls issued one after the other and all
    in flight: the requests go out in issue order, and each fact is
    appended when the reply to its own request arrives, so the cache lists
    the facts in the order in which the replies arrive. *)
Theorem cache_in_completion_order
    (a : agent) (invs : list (string * string)) (order : list nat) (reply : nat -> string) :
  truthy (user_id a) = true ->
  NoDup order ->
  let l := Loop.exec
             (map (fun inv => Loop.Call (store_important_info repr inv.1 inv.2)) invs
              ++ map (fun i => Loop.Completes i (Returns (reply i))) order)
             (Loop.Loop a [] []) in
  Loop.issued l = map (fun inv => Add (fact_message inv.1) (user_id a) (Some "v2")) invs /\
  memories (Loop.self l) = memories a ++ omap (fun i => fst <$> invs !! i) order.
Proof.
  intros Hu Hnodup l. subst l. unfold Loop.exec. rewrite fold_left_app.
  destruct (calls_issued invs (Loop.Loop a [] []) Hu) as (Hid & Hmem & Hissued & ts & Htasks & Hts).
  unfold Loop.exec in *. simpl in Hid, Hmem, Hissued, Htasks.
  match goal with |- context [fold_left _ (map _ order) ?l1] =>
    destruct (completions_append (fun i => fst <$> invs !! i) reply order l1 Hnodup) as [Hm Hiss] end.
  - intros i _. rewrite Htasks.
    destruct (ts !! i) as [t|] eqn:Hlook.
    + destruct (Forall2_lookup_r _ _ _ _ _ Hts Hlook) as (inv & Hinv & Ht).
      exists inv.1. by rewrite Hinv.
    + apply Forall2_length in Hts. apply lookup_ge_None in Hlook.
      rewrite (proj2 (lookup_ge_None invs i)); [done | lia].
  - unfold Loop.exec in *. by rewrite Hm, Hiss, Hmem, Hissued.
Qed.

End In_flight.


(** ** The statements at work on the scripted client *)

Lemma wipe_memories_gated_on_delete_witness :
  truthy (user_id (Agent "ann" ["likes Rome"] [] [])) = true /\
  memories (self_after (run (wipe_memories (Agent "ann" ["likes Rome"] [] [])) unreachable))
  = ["likes Rome"].
Proof.
  split; [reflexivity|].
  destruct (wipe_memories_gated_on_delete unreachable (Agent "ann" ["likes Rome"] [] []) eq_refl)
    as [(Hcalls & _)|[(e & _ & _ & Hmem & _)|(e & _ & _ & Hmem & _)]].
  - vm_compute in Hcalls. discriminate Hcalls.
  - exact Hmem.
  - exact Hmem.
Defined.

(** C1 fails when the [add] raises: the fact is not in the cache. *)
Lemma store_failed_add_not_cached :
  let r := run (store_important_info count_repr "likes Rome" "preferences" ann) unreachable in
  truthy (user_id ann) = true /\
  calls r = [(Add (fact_message "likes Rome") "ann" (Some "v2"), Some timed_out)] /\
  ~ (exists before, memories (self_after r) = before ++ ["likes Rome"]).
Proof.
  split; [reflexivity|]. split; [by vm_compute|].
  intros [before Hlast]. vm_compute in Hlast. by destruct before.
Qed.

Lemma store_appends_when_add_returns_witness :
  truthy (user_id ann) = true /\
  memories (self_after (run (store_important_info count_repr "likes Rome" "preferences" ann) reliable))
  = ["likes Rome"].
Proof.
  split; [reflexivity|].
  destruct (store_appends_when_add_returns count_repr reliable ann "likes Rome" "preferences" eq_refl)
    as [(_ & Hmem & _)|[(e & _ & Hcalls & _)|(e & _ & Hcalls & _)]].
  - exact Hmem.
  - vm_compute in Hcalls. discriminate Hcalls.
  - vm_compute in Hcalls. discriminate Hcalls.
Defined.


Lemma category_only_in_acknowledgment_witness :
  truthy (user_id ann) = true /\
  returned (run (store_important_info count_repr "book a cruise to Alaska" "travel_planning" ann) reliable)
  = Returns "Stored important information about travel_planning".
Proof.
  split; [reflexivity|].
  exact (proj1 (proj2 (category_only_in_acknowledgment count_repr reliable reliable ann
                         "book a cruise to Alaska" "travel_planning" "ok" eq_refl eq_refl))).
Defined.

Lemma on_enter_greets_by_facts_witness :
  let records : list dict :=
    [ {[ "id" := "7" ]}; {[ "memory" := "Likes Rome" ]}; {[ "memory" := "book a Cruise to Alaska" ]} ] in
  truthy (user_id ann) = true /\
  session (self_after (run (on_enter ascii_lower count_repr ann) (holding records)))
  = ["Greet ann and say: I remember our previous conversation about your trip plans. You were planning to book a cruise to alaska. Would you like to continue planning this trip?"].
Proof.
  intros records. split; [reflexivity|].
  refine (proj1 (on_enter_greets_by_facts ascii_lower count_repr (holding records) (holding records)
                   ann records eq_refl eq_refl)
            ["Likes Rome"] "book a Cruise to Alaska" [] _ _ _).
  - by vm_compute.
  - exists "cruise", "book a ", " to alaska". split; [|reflexivity]. simpl. auto.
  - constructor; [|constructor]. intros Hm.
    apply (proj2 (trip_related_spec ascii_lower "Likes Rome")) in Hm. by vm_compute in Hm.
Defined.

Lemma on_enter_absorbs_load_failure_witness :
  truthy (user_id ann) = true /\
  session (self_after (run (on_enter ascii_lower count_repr ann) unreachable)) = [first_time].
Proof.
  split; [reflexivity|].
  exact (proj2 (proj2 (on_enter_absorbs_load_failure ascii_lower count_repr unreachable unreachable
                         ann timed_out eq_refl eq_refl eq_refl))).
Defined.

Lemma load_twice_same_cache_witness :
  let σ := holding [ {[ "memory" := "Likes Rome" ]} ] in
  let r1 := run (on_enter ascii_lower count_repr ann) σ in
  memories (self_after (run (on_enter ascii_lower count_repr (self_after r1)) (store_after r1)))
  = memories (self_after r1).
Proof.
  intros σ.
  exact (load_twice_same_cache ascii_lower count_repr σ σ σ ann
           (Returns [ {[ "memory" := "Likes Rome" ]} ]) eq_refl eq_refl).
Defined.

Lemma records_without_text_load_as_none_witness :
  let records : list dict := [ {[ "id" := "7" ]}; {[ "hash" := "c0ffee" ]} ] in
  truthy (user_id ann) = true /\
  records <> [] /\
  Forall (fun d : dict => d !! "memory" = None) records /\
  memories (self_after (run (on_enter ascii_lower count_repr ann) (holding records))) = [].
Proof.
  intros records.
  assert (records <> []) as Hne by done.
  assert (Forall (fun d : dict => d !! "memory" = None) records) as Hnone
    by (repeat constructor).
  split; [reflexivity|]. split; [exact Hne|]. split; [exact Hnone|].
  exact (proj1 (proj2 (records_without_text_load_as_none ascii_lower count_repr
                         (holding records) (holding records) reliable reliable ann records
                         eq_refl eq_refl Hne Hnone eq_refl))).
Defined.

(** C10 fails on an agent that holds facts on entry: records without a
    ["memory"] field empty the cache, no records leave it. *)
Lemma fieldless_records_unlike_no_records :
  let a := Agent "ann" ["likes Rome"] [] [] in
  let r := run (on_enter ascii_lower count_repr a) (holding [ {[ "id" := "7" ]} ]) in
  let r0 := run (on_enter ascii_lower count_repr a) (holding []) in
  memories (self_after r) = [] /\
  memories (self_after r0) = ["likes Rome"] /\
  session (self_after r) = session (self_after r0) /\
  memories (self_after r) <> memories (self_after r0).
Proof.
  split; [by vm_compute|]. split; [by vm_compute|]. split; [by vm_compute|]. by vm_compute.
Qed.

(** C5 fails when an [add] raises before the last fact: the facts after
    it are not sent. *)
Lemma on_exit_skips_facts_after_failure :
  let r := run (on_exit (Agent "ann" ["a"; "b"; "c"] [] [])) (rejecting "a") in
  calls r = [(Add (fact_message "a") "ann" None, Some timed_out)] /\
  ~ In (Add (fact_message "b") "ann" None) (map fst (calls r)).
Proof.
  assert (calls (run (on_exit (Agent "ann" ["a"; "b"; "c"] [] [])) (rejecting "a"))
          = [(Add (fact_message "a") "ann" None, Some timed_out)]) as Hcalls by (by vm_compute).
  split; [exact Hcalls|]. rewrite Hcalls. simpl. intros [Heq|[]].
  vm_compute in Heq. discriminate Heq.
Qed.

(** C9 fails when the replies arrive out of issue order. *)
Lemma cache_not_in_issue_order :
  let l := Loop.exec
             [Loop.Call (store_important_info count_repr "F1" "preferences");
              Loop.Call (store_important_info count_repr "F2" "preferences");
              Loop.Completes 1 (Returns "ok");
              Loop.Completes 0 (Returns "ok")]
             (Loop.Loop ann [] []) in
  Loop.issued l = [Add (fact_message "F1") "ann" (Some "v2"); Add (fact_message "F2") "ann" (Some "v2")] /\
  memories (Loop.self l) = ["F2"; "F1"] /\
  memories (Loop.self l) <> ["F1"; "F2"].
Proof.
  split; [by vm_compute|]. split; [by vm_compute|]. by vm_compute.
Qed.

Lemma cache_in_completion_order_witness :
  truthy (user_id ann) = true /\
  NoDup [2; 0; 1] /\
  memories (Loop.self (Loop.exec
    (map (fun inv => Loop.Call (store_important_info count_repr inv.1 inv.2))
       [("F1", "preferences"); ("F2", "requirements"); ("F3", "travel_planning")]
     ++ map (fun i => Loop.Completes i (Returns "ok")) [2; 0; 1])
    (Loop.Loop ann [] [])))
  = ["F3"; "F1"; "F2"].
Proof.
  assert (NoDup [2; 0; 1]) as Hnodup by compute_done.
  split; [reflexivity|]. split; [exact Hnodup|].
  exact (proj2 (cache_in_completion_order count_repr ann
                  [("F1", "preferences"); ("F2", "requirements"); ("F3", "travel_planning")]
                  [2; 0; 1] (fun _ => "ok") eq_refl Hnodup)).
Defined.

(** ** Each call, run to completion *)

Section Calls.
Context {St : Type} `{MemoryClient St}.
Variable lower : string -> string.
Variable repr : list dict -> string.

Lemma run_store_returns (σ σ' : St) (a : agent) (info category x : string) :
  truthy (user_id a) = true ->
  mem0_add (fact_message info) (user_id a) (Some "v2") σ = (Returns x, σ') ->
  run (store_important_info repr info category a) σ
  = Ran (Returns ("Stored important information about " +:+ category))
        (Agent (user_id a) (memories a ++ [info]) (session a)
           (logger a ++
            [(INFO, "Storing important information for user " +:+ user_id a +:+ ": " +:+ info);
             (DEBUG, "Attempting to store memory with data: " +:+ repr (fact_message info));
             (DEBUG, "Memory storage result: " +:+ x)]))
        σ' [(Add (fact_message info) (user_id a) (Some "v2"), None)].
Proof.
  intros Hu Hadd. unfold store_important_info, try_except, bind, read. cbn. rewrite Hu. cbn.
  unfold fact_message in *. rewrite Hadd. cbn. by rewrite <- !app_assoc.
Qed.

Lemma run_store_escapes (σ σ' : St) (a : agent) (info category : string) (e : exn) :
  truthy (user_id a) = true ->
  mem0_add (fact_message info) (user_id a) (Some "v2") σ = (Raises e, σ') ->
  is_exception e = false ->
  run (store_important_info repr info category a) σ
  = Ran (Raises e)
        (Agent (user_id a) (memories a) (session a)
           (logger a ++
            [(INFO, "Storing important information for user " +:+ user_id a +:+ ": " +:+ info);
             (DEBUG, "Attempting to store memory with data: " +:+ repr (fact_message info))]))
        σ' [(Add (fact_message info) (user_id a) (Some "v2"), Some e)].
Proof.
  intros Hu Hadd He. unfold store_important_info, try_except, bind, read. cbn. rewrite Hu. cbn.
  unfold fact_message in *. rewrite Hadd. cbn. rewrite He. cbn. by rewrite <- !app_assoc.
Qed.

Lemma run_store_raises (σ σ' : St) (a : agent) (info category : string) (e : exn) :
  truthy (user_id a) = true ->
  mem0_add (fact_message info) (user_id a) (Some "v2") σ = (Raises e, σ') ->
  is_exception e = true ->
  run (store_important_info repr info category a) σ
  = Ran (Returns "I had trouble storing that information")
        (Agent (user_id a) (memories a) (session a)
           (logger a ++
            [(INFO, "Storing important information for user " +:+ user_id a +:+ ": " +:+ info);
             (DEBUG, "Attempting to store memory with data: " +:+ repr (fact_message info));
             (ERROR, "Error storing important information for user " +:+ user_id a +:+ ": " +:+ str e);
             (ERROR, "Full error details: " +:+ details e)]))
        σ' [(Add (fact_message info) (user_id a) (Some "v2"), Some e)].
Proof.
  intros Hu Hadd He. unfold store_important_info, try_except, bind, read. cbn. rewrite Hu. cbn.
  unfold fact_message in *. rewrite Hadd. cbn. rewrite He. cbn. by rewrite <- !app_assoc.
Qed.

Lemma run_store_unset (σ : St) (a : agent) (info category : string) :
  truthy (user_id a) = false ->
  run (store_important_info repr info category a) σ
  = Ran (Returns "I had trouble storing that information - no user identified")
        (Agent (user_id a) (memories a) (session a)
           (logger a ++ [(ERROR, "No user_id available for storing information")]))
        σ [].
Proof.
  intros Hu. unfold store_important_info, try_except, bind, read. cbn. by rewrite Hu.
Qed.

Lemma run_wipe_returns (σ σ' : St) (a : agent) (x : string) :
  truthy (user_id a) = true ->
  mem0_delete_all (user_id a) σ = (Returns x, σ') ->
  run (wipe_memories a) σ
  = Ran (Returns "I've cleared all my memories. We can start fresh!")
        (Agent (user_id a) [] (session a)
           (logger a ++
            [(INFO, "Attempting to delete all memories for user: " +:+ user_id a);
             (INFO, "Successfully wiped memories for user: " +:+ user_id a)]))
        σ' [(Delete_all (user_id a), None)].
Proof.
  intros Hu Hdel. unfold wipe_memories, try_except, bind, read. cbn. rewrite Hu. cbn.
  rewrite Hdel. cbn. by rewrite <- !app_assoc.
Qed.

Lemma run_wipe_escapes (σ σ' : St) (a : agent) (e : exn) :
  truthy (user_id a) = true ->
  mem0_delete_all (user_id a) σ = (Raises e, σ') ->
  is_exception e = false ->
  run (wipe_memories a) σ
  = Ran (Raises e)
        (Agent (user_id a) (memories a) (session a)
           (logger a ++ [(INFO, "Attempting to delete all memories for user: " +:+ user_id a)]))
        σ' [(Delete_all (user_id a), Some e)].
Proof.
  intros Hu Hdel He. unfold wipe_memories, try_except, bind, read. cbn. rewrite Hu. cbn.
  rewrite Hdel. cbn. rewrite He. by cbn.
Qed.

Lemma run_wipe_raises (σ σ' : St) (a : agent) (e : exn) :
  truthy (user_id a) = true ->
  mem0_delete_all (user_id a) σ = (Raises e, σ') ->
  is_exception e = true ->
  run (wipe_memories a) σ
  = Ran (Returns "I had trouble clearing my memories. Please try again.")
        (Agent (user_id a) (memories a) (session a)
           (logger a ++
            [(INFO, "Attempting to delete all memories for user: " +:+ user_id a);
             (ERROR, "Error wiping memories for user " +:+ user_id a +:+ ": " +:+ str e);
             (ERROR, "Full error details: " +:+ details e)]))
        σ' [(Delete_all (user_id a), Some e)].
Proof.
  intros Hu Hdel He. unfold wipe_memories, try_except, bind, read. cbn. rewrite Hu. cbn.
  rewrite Hdel. cbn. rewrite He. cbn. by rewrite <- !app_assoc.
Qed.

Lemma run_wipe_unset (σ : St) (a : agent) :
  truthy (user_id a) = false ->
  run (wipe_memories a) σ
  = Ran (Returns "I had trouble clearing my memories - no user identified")
        (Agent (user_id a) (memories a) (session a)
           (logger a ++ [(ERROR, "No user_id available for wiping memories")]))
        σ [].
Proof.
  intros Hu. unfold wipe_memories, try_except, bind, read. cbn. by rewrite Hu.
Qed.

Lemma run_on_enter_calls (σ : St) (a : agent) :
  calls (run (on_enter lower repr a) σ)
  = if truthy (user_id a)
    then [(Get_all (user_filters (user_id a)) (Some "v2"),
           failure (mem0_get_all (user_filters (user_id a)) (Some "v2") σ).1)]
    else [].
Proof.
  unfold on_enter, try_except, bind, read. cbn. destruct (truthy (user_id a)); cbn; [|done].
  unfold user_filters.
  destruct (mem0_get_all _ (Some "v2") σ) as [[records|e] σ']; cbn;
    [|by destruct (is_exception e)].
  destruct (nonempty records); cbn; [|done].
  by destruct (nonempty (memory_texts records)).
Qed.

Lemma run_on_enter_raises_log (σ σ' : St) (a : agent) (e : exn) :
  truthy (user_id a) = true ->
  mem0_get_all (user_filters (user_id a)) (Some "v2") σ = (Raises e, σ') ->
  is_exception e = true ->
  logger (self_after (run (on_enter lower repr a) σ))
  = logger a ++
    [(INFO, "Attempting to load memories for user: " +:+ user_id a);
     (ERROR, "Error loading memories for user " +:+ user_id a +:+ ": " +:+ str e);
     (ERROR, "Full error details: " +:+ details e)].
Proof.
  intros Hu Hget He. unfold on_enter, try_except, bind, read. cbn. rewrite Hu. cbn.
  unfold user_filters in Hget. rewrite Hget. cbn. rewrite He. cbn. by rewrite <- !app_assoc.
Qed.

Lemma run_on_exit_summary (σ : St) (a : agent) :
  let r := run (on_exit a) σ in
  (returned r = Returns tt \/
   exists e c, returned r = Raises e /\ is_exception e = false /\ In (c, Some e) (calls r)) /\
  user_id (self_after r) = user_id a /\
  memories (self_after r) = memories a /\
  session (self_after r) = session a /\
  Forall (fun c => exists fact, c.1 = Add (fact_message fact) (user_id a) None) (calls r).
Proof.
  intros r. subst r.
  destruct (nonempty (memories a)) eqn:Hne.
  - rewrite on_exit_nonempty by done. rewrite run_catch_coro.
    match goal with |- context [run (for_each ?l ?body ?s) σ] =>
      destruct (run_flush_loop l s σ) as (Hself & Hcases);
      destruct (run (for_each l body s) σ) as [o s' σ' cs] end.
    simpl in Hself, Hcases. subst s'.
    destruct Hcases as [(-> & ->)|(before & fact & after & e & Hmem & -> & ->)];
      unfold else_run; simpl.
    + split; [by left|]. repeat (split; [done|]).
      apply Forall_fmap, Forall_true. intros fact. by exists fact.
    + assert (Forall (fun c : request * option exn =>
                        exists fact, c.1 = Add (fact_message fact) (user_id a) None)
                (map (fun fact => (Add (fact_message fact) (user_id a) None, @None exn)) before
                 ++ [(Add (fact_message fact) (user_id a) None, Some e)])) as Hall.
      { apply Forall_app. split.
        - apply Forall_fmap, Forall_true. intros f. by exists f.
        - repeat constructor. by exists fact. }
      destruct (is_exception e) eqn:He; simpl.
      * split; [by left|]. repeat (split; [done|]). by rewrite app_nil_r.
      * split; [|done]. right. exists e, (Add (fact_message fact) (user_id a) None).
        split; [done|]. split; [done|]. apply in_app_iff. right. by left.
  - rewrite on_exit_empty by done. simpl. split; [by left|]. repeat (split; [done|]). constructor.
Qed.

Lemma memory_texts_omap (records : list dict) :
  memory_texts records = omap (fun d : dict => d !! "memory") records.
Proof.
  induction records as [|d l IH]; [done|].
  change (memory_texts (d :: l))
    with ((if has_key "memory" d
           then match d !! "memory" with Some text => [text] | None => [] end
           else []) ++ memory_texts l).
  change (omap (fun d : dict => d !! "memory") (d :: l))
    with (match d !! "memory" with
          | Some y => y :: omap (fun d : dict => d !! "memory") l
          | None => omap (fun d : dict => d !! "memory") l
          end).
  rewrite IH. unfold has_key.
  destruct (d !! "memory") as [text|] eqn:Hd.
  - by rewrite bool_decide_eq_true_2.
  - by destruct (bool_decide _).
Qed.

Lemma texts_at_most_records (records : list dict) :
  length (omap (fun d : dict => d !! "memory") records) <= length records.
Proof.
  induction records as [|d l IH]; [done|].
  change (omap (fun d : dict => d !! "memory") (d :: l))
    with (match d !! "memory" with
          | Some y => y :: omap (fun d : dict => d !! "memory") l
          | None => omap (fun d : dict => d !! "memory") l
          end).
  destruct (d !! "memory"); simpl; lia.
Qed.

Lemma perform_cases (i : invocation) (a : agent) (σ : St) :
  let r := perform lower repr i a σ in
  user_id (self_after r) = user_id a /\
  match i with
  | Enter =>
      (exists o, calls r = if truthy (user_id a)
                           then [(Get_all (user_filters (user_id a)) (Some "v2"), o)] else []) /\
      (returned r = Returns None \/
       exists e, returned r = Raises e /\ is_exception e = false /\
                 calls r = [(Get_all (user_filters (user_id a)) (Some "v2"), Some e)])
  | Store info category =>
      (truthy (user_id a) = true /\
       (exists o, calls r = [(Add (fact_message info) (user_id a) (Some "v2"), o)]) /\
       (returned r = Returns (Some ("Stored important information about " +:+ category)) \/
        returned r = Returns (Some "I had trouble storing that information") \/
        exists e, returned r = Raises e /\ is_exception e = false /\
                  calls r = [(Add (fact_message info) (user_id a) (Some "v2"), Some e)]))
      \/
      (truthy (user_id a) = false /\ calls r = [] /\
       returned r = Returns (Some "I had trouble storing that information - no user identified"))
  | Wipe =>
      (truthy (user_id a) = true /\
       (exists o, calls r = [(Delete_all (user_id a), o)]) /\
       (returned r = Returns (Some "I've cleared all my memories. We can start fresh!") \/
        returned r = Returns (Some "I had trouble clearing my memories. Please try again.") \/
        exists e, returned r = Raises e /\ is_exception e = false /\
                  calls r = [(Delete_all (user_id a), Some e)]))
      \/
      (truthy (user_id a) = false /\ calls r = [] /\
       returned r = Returns (Some "I had trouble clearing my memories - no user identified"))
  | Exit =>
      Forall (fun c => exists fact, c.1 = Add (fact_message fact) (user_id a) None) (calls r) /\
      (returned r = Returns None \/
       exists e c, returned r = Raises e /\ is_exception e = false /\ In (c, Some e) (calls r))
  end.
Proof.
  destruct i as [|info category| |]; unfold perform, answered; cbv zeta; cbn [returned self_after calls].
  - rewrite run_on_enter_calls.
    destruct (truthy (user_id a)) eqn:Hu.
    + destruct (mem0_get_all (user_filters (user_id a)) (Some "v2") σ) as [[records|e] σ'] eqn:Hget.
      * destruct (run_on_enter_loaded lower repr σ σ' a records Hu Hget) as (-> & _ & -> & _).
        split; [done|]. split; [by eexists|]. by left.
      * destruct (is_exception e) eqn:He.
        -- destruct (run_on_enter_failed lower repr σ σ' a e Hu Hget He) as (-> & _ & -> & _).
           split; [done|]. split; [by eexists|]. by left.
        -- destruct (run_on_enter_escapes lower repr σ σ' a e Hu Hget He) as (-> & _ & -> & _).
           simpl. split; [done|]. split; [by eexists|]. right. by exists e.
    + destruct (run_on_enter_unset lower repr σ a Hu) as (-> & _ & -> & _).
      split; [done|]. split; [by exists None|]. by left.
  - destruct (truthy (user_id a)) eqn:Hu.
    + destruct (mem0_add (fact_message info) (user_id a) (Some "v2") σ) as [[x|e] σ'] eqn:Hadd.
      * rewrite (run_store_returns σ σ' a info category x Hu Hadd). cbn.
        split; [done|]. left. split; [done|]. split; [by eexists|]. by left.
      * destruct (is_exception e) eqn:He.
        -- rewrite (run_store_raises σ σ' a info category e Hu Hadd He). cbn.
           split; [done|]. left. split; [done|]. split; [by eexists|]. right. by left.
        -- rewrite (run_store_escapes σ σ' a info category e Hu Hadd He). cbn.
           split; [done|]. left. split; [done|]. split; [by eexists|]. right. right. by exists e.
    + rewrite (run_store_unset σ a info category Hu). cbn. split; [done|]. by right.
  - destruct (truthy (user_id a)) eqn:Hu.
    + destruct (mem0_delete_all (user_id a) σ) as [[x|e] σ'] eqn:Hdel.
      * rewrite (run_wipe_returns σ σ' a x Hu Hdel). cbn.
        split; [done|]. left. split; [done|]. split; [by eexists|]. by left.
      * destruct (is_exception e) eqn:He.
        -- rewrite (run_wipe_raises σ σ' a e Hu Hdel He). cbn.
           split; [done|]. left. split; [done|]. split; [by eexists|]. right. by left.
        -- rewrite (run_wipe_escapes σ σ' a e Hu Hdel He). cbn.
           split; [done|]. left. split; [done|]. split; [by eexists|]. right. right. by exists e.
    + rewrite (run_wipe_unset σ a Hu). cbn. split; [done|]. by right.
  - destruct (run_on_exit_summary σ a) as (Hret & -> & _ & _ & Hcalls).
    split; [done|]. split; [done|].
    destruct Hret as [->|(e & c & -> & He & Hin)]; [by left|]. right. by exists e, c.
Qed.

Lemma init_identified (username : option string) :
  truthy (user_id (init username)) = true.
Proof.
  destruct username as [u|]; simpl; [|done]. by destruct (truthy u) eqn:Hu.
Qed.

Lemma perform_answers (i : invocation) (a : agent) (σ : St) :
  let r := perform lower repr i a σ in
  (exists v, returned r = Returns v) \/
  (exists e c, returned r = Raises e /\ is_exception e = false /\ In (c, Some e) (calls r)).
Proof.
  destruct (perform_cases i a σ) as [_ Hi]. cbv zeta. destruct i.
  - destruct Hi as (_ & [->|(e & -> & He & ->)]); [left; by eexists|].
    right. eexists e, _. split; [done|]. split; [done|]. by left.
  - destruct Hi as [(_ & _ & [->|[->|(e & -> & He & ->)]])|(_ & _ & ->)];
      [left; by eexists|left; by eexists| |left; by eexists].
    right. eexists e, _. split; [done|]. split; [done|]. by left.
  - destruct Hi as [(_ & _ & [->|[->|(e & -> & He & ->)]])|(_ & _ & ->)];
      [left; by eexists|left; by eexists| |left; by eexists].
    right. eexists e, _. split; [done|]. split; [done|]. by left.
  - destruct Hi as (_ & [->|(e & c & -> & He & Hin)]); [left; by eexists|].
    right. by exists e, c.
Qed.

Lemma perform_user (i : invocation) (a : agent) (σ : St) :
  user_id (self_after (perform lower repr i a σ)) = user_id a.
Proof. by destruct (perform_cases i a σ) as [Hid _]. Qed.

Lemma perform_targets (i : invocation) (a : agent) (σ : St) :
  Forall (fun c => targets (user_id a) c.1) (calls (perform lower repr i a σ)).
Proof.
  destruct (perform_cases i a σ) as [_ Hi]. destruct i.
  - destruct Hi as ((o & ->) & _). destruct (truthy (user_id a)); by repeat constructor.
  - destruct Hi as [(_ & (o & ->) & _)|(_ & -> & _)]; by repeat constructor.
  - destruct Hi as [(_ & (o & ->) & _)|(_ & -> & _)]; by repeat constructor.
  - destruct Hi as (Hcalls & _). eapply Forall_impl; [exact Hcalls|].
    intros c (fact & Hc). by rewrite Hc.
Qed.

Lemma perform_deletes (i : invocation) (a : agent) (σ : St) :
  length (List.filter (fun c => is_delete c.1) (calls (perform lower repr i a σ)))
  = if truthy (user_id a) && is_wipe i then 1 else 0.
Proof.
  destruct (perform_cases i a σ) as [_ Hi]. destruct i.
  - destruct Hi as ((o & ->) & _). by destruct (truthy (user_id a)).
  - destruct Hi as [(_ & (o & ->) & _)|(_ & -> & _)]; simpl; by rewrite andb_false_r.
  - by destruct Hi as [(-> & (o & ->) & _)|(-> & -> & _)].
  - destruct Hi as (Hcalls & _). simpl is_wipe. rewrite andb_false_r.
    induction Hcalls as [|c l (fact & Hc) _ IH]; [done|].
    simpl. by rewrite Hc.
Qed.

Lemma perform_identified (i : invocation) (a : agent) (σ : St) (text : string) :
  truthy (user_id a) = true ->
  returned (perform lower repr i a σ) = Returns (Some text) ->
  ~ In text unidentified.
Proof.
  intros Hu Hret. destruct (perform_cases i a σ) as [_ Hi]. destruct i.
  - destruct Hi as (_ & [Hnone|(e & Hr & _)]); congruence.
  - destruct Hi as [(_ & _ & [Hr|[Hr|(e & Hr & _)]])|(Hu' & _)]; [| |congruence|congruence];
      rewrite Hr in Hret; injection Hret as <-; simpl;
      intros [Heq|[Heq|[]]]; try rewrite append_cons in Heq; discriminate Heq.
  - destruct Hi as [(_ & _ & [Hr|[Hr|(e & Hr & _)]])|(Hu' & _)]; [| |congruence|congruence];
      rewrite Hr in Hret; injection Hret as <-; simpl;
      intros [Heq|[Heq|[]]]; discriminate Heq.
  - destruct Hi as (_ & [Hnone|(e & c & Hr & _)]); congruence.
Qed.

Lemma run_add_outcomes {A} (t : coro A) (σ : St) :
  add_always_returns ->
  Forall (fun c => is_add c.1 = true -> c.2 = None) (calls (run t σ)).
Proof.
  intros Hadd. revert σ.
  induction t as [r self|m u v self k IH|q v self k IH|u self k IH]; intros σ; simpl.
  - constructor.
  - destruct (Hadd m u v σ) as (x & σ' & ->). simpl. constructor; [done|]. apply IH.
  - destruct (mem0_get_all q v σ) as [o σ']. simpl. constructor; [done|]. apply IH.
  - destruct (mem0_delete_all u σ) as [o σ']. simpl. constructor; [done|]. apply IH.
Qed.

Lemma run_on_exit_reliable (σ : St) (a : agent) :
  add_always_returns ->
  let r := run (on_exit a) σ in
  calls r = map (fun fact => (Add (fact_message fact) (user_id a) None, None)) (memories a).
Proof.
  intros Hadd r. pose proof (run_add_outcomes (on_exit a) σ Hadd) as Hnone. fold r in Hnone.
  subst r. revert Hnone.
  destruct (nonempty (memories a)) eqn:Hne.
  - rewrite on_exit_nonempty by done. rewrite run_catch_coro.
    match goal with |- context [run (for_each ?l ?body ?s) σ] =>
      destruct (run_flush_loop l s σ) as (Hself & Hcases);
      destruct (run (for_each l body s) σ) as [o s' σ' cs] end.
    simpl in Hself, Hcases. subst s'.
    destruct Hcases as [(-> & ->)|(before & fact & after & e & Hmem & -> & ->)];
      unfold else_run; simpl; [done|].
    destruct (is_exception e); simpl; rewrite ?app_nil_r;
      intros Hnone; apply Forall_app in Hnone as [_ Hlast];
      apply Forall_cons in Hlast as [Hlast _]; by specialize (Hlast eq_refl).
  - rewrite on_exit_empty by done. by destruct (memories a).
Qed.

(** ** What the hooks and tools keep *)

(** X1. Without a user id, [store_important_info], [wipe_memories] and
    [on_enter] make no Mem0 call and leave the cache as it is: the tools
    return their no-user apology, [on_enter] gives the first-time
    greeting. *)
Theorem unset_user_id_makes_no_request (σ : St) (a : agent) (info category : string) :
  truthy (user_id a) = false ->
  (let r := run (store_important_info repr info category a) σ in
   calls r = [] /\ store_after r = σ /\ memories (self_after r) = memories a /\
   returned r = Returns "I had trouble storing that information - no user identified") /\
  (let r := run (wipe_memories a) σ in
   calls r = [] /\ store_after r = σ /\ memories (self_after r) = memories a /\
   returned r = Returns "I had trouble clearing my memories - no user identified") /\
  (let r := run (on_enter lower repr a) σ in
   calls r = [] /\ store_after r = σ /\ memories (self_after r) = memories a /\
   session (self_after r) = session a ++ [first_time]).
Proof.
  intros Hu. split; [|split]; cbv zeta.
  - by rewrite (run_store_unset σ a info category Hu).
  - by rewrite (run_wipe_unset σ a Hu).
  - rewrite run_on_enter_calls, Hu.
    destruct (run_on_enter_unset lower repr σ a Hu) as (_ & ? & _ & ? & ?). auto.
Qed.

(** X2. When the Mem0 call of [store_important_info], [wipe_memories] or
    [on_enter] raises an exception, the last two records given to the
    logger are at error level and carry the text of the exception and its
    details. *)
Theorem remote_failure_is_logged (σ σ' : St) (a : agent) (info category : string) (e : exn) :
  truthy (user_id a) = true ->
  is_exception e = true ->
  (mem0_add (fact_message info) (user_id a) (Some "v2") σ = (Raises e, σ') ->
   exists earlier,
     logger (self_after (run (store_important_info repr info category a) σ))
     = earlier ++
       [(ERROR, "Error storing important information for user " +:+ user_id a +:+ ": " +:+ str e);
        (ERROR, "Full error details: " +:+ details e)]) /\
  (mem0_delete_all (user_id a) σ = (Raises e, σ') ->
   exists earlier,
     logger (self_after (run (wipe_memories a) σ))
     = earlier ++
       [(ERROR, "Error wiping memories for user " +:+ user_id a +:+ ": " +:+ str e);
        (ERROR, "Full error details: " +:+ details e)]) /\
  (mem0_get_all (user_filters (user_id a)) (Some "v2") σ = (Raises e, σ') ->
   exists earlier,
     logger (self_after (run (on_enter lower repr a) σ))
     = earlier ++
       [(ERROR, "Error loading memories for user " +:+ user_id a +:+ ": " +:+ str e);
        (ERROR, "Full error details: " +:+ details e)]).
Proof.
  intros Hu He. split; [|split].
  - intros Hadd. rewrite (run_store_raises σ σ' a info category e Hu Hadd He). simpl.
    eexists (logger a ++ [_; _]). by rewrite <- app_assoc.
  - intros Hdel. rewrite (run_wipe_raises σ σ' a e Hu Hdel He). simpl.
    eexists (logger a ++ [_]). by rewrite <- app_assoc.
  - intros Hget. rewrite (run_on_enter_raises_log σ σ' a e Hu Hget He).
    eexists (logger a ++ [_]). by rewrite <- app_assoc.
Qed.

(** X3. Whatever the order of the calls, the agent and the client, a
    hook or tool call of a session either returns to its caller or passes
    on what one of its Mem0 calls raised, and then that is not an
    [Exception]; so when the client raises nothing but exceptions, every
    call returns. *)
Theorem session_absorbs_exceptions (invs : list invocation) (a : agent) (σ : St) :
  let t := run_session lower repr invs a σ in
  Forall (fun o =>
            (exists v, o = Returns v) \/
            (exists e c, o = Raises e /\ is_exception e = false /\ In (c, Some e) (requests t)))
    (answers t) /\
  (Forall (fun c => forall e, c.2 = Some e -> is_exception e = true) (requests t) ->
   Forall (fun o => exists v, o = Returns v) (answers t)).
Proof.
  cbv zeta.
  assert (Forall (fun o =>
            (exists v, o = Returns v) \/
            (exists e c, o = Raises e /\ is_exception e = false /\
                         In (c, Some e) (requests (run_session lower repr invs a σ))))
            (answers (run_session lower repr invs a σ))) as Hall.
  { revert a σ. induction invs as [|i invs IH]; intros a σ; simpl; constructor.
    - destruct (perform_answers i a σ) as [?|(e & c & ? & ? & ?)]; [by left|].
      right. exists e, c. rewrite in_app_iff. auto.
    - eapply Forall_impl; [apply IH|]. intros o [?|(e & c & ? & ? & ?)]; [by left|].
      right. exists e, c. rewrite in_app_iff. auto. }
  split; [exact Hall|]. intros Hexc.
  eapply Forall_impl; [exact Hall|]. intros o [?|(e & c & _ & He & Hin)]; [done|].
  rewrite Forall_forall in Hexc. apply list_elem_of_In in Hin.
  specialize (Hexc _ Hin e eq_refl). congruence.
Qed.

(** X4. No call of a session changes [self.user_id], and every Mem0
    request of the session is for that user: [add] and [delete_all] carry
    it, [get_all] filters on it. *)
Theorem session_stays_in_user_partition (invs : list invocation) (a : agent) (σ : St) :
  let t := run_session lower repr invs a σ in
  user_id (agent_after t) = user_id a /\
  Forall (fun c => targets (user_id a) c.1) (requests t).
Proof.
  revert a σ. induction invs as [|i invs IH]; intros a σ; simpl; [by split|].
  destruct (IH (self_after (perform lower repr i a σ)) (store_after (perform lower repr i a σ)))
    as [Hid Hreq].
  rewrite perform_user in Hid, Hreq. split; [done|].
  apply Forall_app. split; [apply perform_targets | done].
Qed.

(** X5. For an agent built by [__init__], whatever username it was given,
    no tool call of a session returns one of the no-user apologies. *)
Theorem constructed_agent_is_identified
    (username : option string) (invs : list invocation) (σ : St) :
  Forall (fun o => forall text, o = Returns (Some text) -> ~ In text unidentified)
    (answers (run_session lower repr invs (init username) σ)).
Proof.
  pose proof (init_identified username) as Hu. revert Hu. generalize (init username) as a.
  intros a Hu. revert a σ Hu.
  induction invs as [|i invs IH]; intros a σ Hu; simpl; constructor.
  - intros text. by apply perform_identified.
  - apply IH. by rewrite perform_user.
Qed.

(** X6. A session sends exactly one [delete_all] for each call of
    [wipe_memories] when the user id is set, and none otherwise: no other
    hook or tool deletes. *)
Theorem one_delete_per_wipe (invs : list invocation) (a : agent) (σ : St) :
  length (List.filter (fun c => is_delete c.1) (requests (run_session lower repr invs a σ)))
  = if truthy (user_id a) then length (List.filter is_wipe invs) else 0.
Proof.
  revert a σ. induction invs as [|i invs IH]; intros a σ; simpl.
  - by destruct (truthy (user_id a)).
  - rewrite List.filter_app, length_app, perform_deletes, IH, perform_user.
    destruct (truthy (user_id a)), (is_wipe i); simpl; lia.
Qed.

(** X7. When [get_all] returns an empty list, [on_enter] leaves the cache
    as it finds it (it is not reset, unlike on a failure) and gives the
    first-time greeting. *)
Theorem empty_load_keeps_cache (σ σ' : St) (a : agent) :
  truthy (user_id a) = true ->
  mem0_get_all (user_filters (user_id a)) (Some "v2") σ = (Returns [], σ') ->
  let r := run (on_enter lower repr a) σ in
  returned r = Returns tt /\
  memories (self_after r) = memories a /\
  session (self_after r) = session a ++ [first_time].
Proof.
  intros Hu Hget. destruct (run_on_enter_loaded lower repr σ σ' a [] Hu Hget) as (? & _ & _ & ? & ?).
  auto.
Qed.

(** X8. When [get_all] returns records, [on_enter] replaces the cache,
    whatever it held, by the ["memory"] texts of the records that have
    one, in the order of the records; the records without one are
    skipped. *)
Theorem load_replaces_cache (σ σ' : St) (a : agent) (records : list dict) :
  truthy (user_id a) = true ->
  mem0_get_all (user_filters (user_id a)) (Some "v2") σ = (Returns records, σ') ->
  records <> [] ->
  let r := run (on_enter lower repr a) σ in
  memories (self_after r) = omap (fun d : dict => d !! "memory") records /\
  length (memories (self_after r)) <= length records.
Proof.
  intros Hu Hget Hne r.
  destruct (run_on_enter_loaded lower repr σ σ' a records Hu Hget) as (_ & _ & _ & Hmem & _).
  fold r in Hmem. rewrite Hmem, memory_texts_omap.
  destruct records; [done|]. split; [done|]. apply texts_at_most_records.
Qed.

(** X9. With a client whose [add] returns, a session that stores facts and
    then ends sends every stored fact twice: once by
    [store_important_info], with version ["v2"], and once more by
    [on_exit], without a version, together with the facts that were in the
    cache before. *)
Theorem stored_facts_are_sent_twice (facts : list (string * string)) (a : agent) (σ : St) :
  add_always_returns ->
  truthy (user_id a) = true ->
  let t := run_session lower repr (map (fun f => Store f.1 f.2) facts ++ [Exit]) a σ in
  memories (agent_after t) = memories a ++ map fst facts /\
  requests t
  = map (fun f => (Add (fact_message f.1) (user_id a) (Some "v2"), None)) facts
    ++ map (fun fact => (Add (fact_message fact) (user_id a) None, None))
         (memories a ++ map fst facts).
Proof.
  intros Hadd Hu. revert a σ Hu. induction facts as [|[info category] facts IH]; intros a σ Hu.
  - simpl. rewrite !app_nil_r. destruct (run_on_exit_summary σ a) as (_ & _ & Hmem & _).
    split; [done|]. by apply run_on_exit_reliable.
  - destruct (Hadd (fact_message info) (user_id a) (Some "v2") σ) as (x & σ' & Hx).
    cbv zeta.
    change (map (fun f : string * string => Store f.1 f.2) ((info, category) :: facts))
      with (Store info category :: map (fun f : string * string => Store f.1 f.2) facts).
    rewrite <- app_comm_cons. cbn [run_session perform].
    rewrite (run_store_returns σ σ' a info category x Hu Hx).
    cbn [answered self_after store_after calls requests agent_after fst snd].
    match goal with |- context [run_session _ _ _ ?a1 σ'] =>
      destruct (IH a1 σ' Hu) as [Hmem Hreq] end.
    rewrite Hmem, Hreq. simpl. by rewrite <- !app_assoc.
Qed.

(** X10. The [on_enter] of an agent built by [__init__] always asks the
    store once: for the username it was given, or for ["default_user"]
    when there is none or it is empty. *)
Theorem constructed_agent_loads_once (username : option string) (σ : St) :
  exists o,
    calls (run (on_enter lower repr (init username)) σ)
    = [(Get_all (user_filters (match username with
                               | Some u => if truthy u then u else "default_user"
                               | None => "default_user"
                               end)) (Some "v2"), o)].
Proof.
  rewrite run_on_enter_calls, init_identified. eexists. reflexivity.
Qed.

Lemma perform_speaks (i : invocation) (a : agent) (σ : St) :
  let r := perform lower repr i a σ in
  length (session (self_after r))
  = length (session a) + (if is_enter i && is_returned (returned r) then 1 else 0).
Proof.
  destruct i as [|info category| |]; unfold perform, answered; cbv zeta;
    cbn [self_after returned is_enter andb].
  - destruct (truthy (user_id a)) eqn:Hu.
    + destruct (mem0_get_all (user_filters (user_id a)) (Some "v2") σ) as [[records|e] σ'] eqn:Hget.
      * destruct (run_on_enter_loaded lower repr σ σ' a records Hu Hget) as (-> & _ & _ & _ & ->).
        by rewrite length_app.
      * destruct (is_exception e) eqn:He.
        -- destruct (run_on_enter_failed lower repr σ σ' a e Hu Hget He) as (-> & _ & _ & _ & ->).
           by rewrite length_app.
        -- destruct (run_on_enter_escapes lower repr σ σ' a e Hu Hget He) as (-> & _ & _ & _ & ->).
           simpl. lia.
    + destruct (run_on_enter_unset lower repr σ a Hu) as (-> & _ & _ & _ & ->).
      by rewrite length_app.
  - destruct (truthy (user_id a)) eqn:Hu.
    + destruct (mem0_add (fact_message info) (user_id a) (Some "v2") σ) as [[x|e] σ'] eqn:Hadd.
      * rewrite (run_store_returns σ σ' a info category x Hu Hadd). simpl. lia.
      * destruct (is_exception e) eqn:He.
        -- rewrite (run_store_raises σ σ' a info category e Hu Hadd He). simpl. lia.
        -- rewrite (run_store_escapes σ σ' a info category e Hu Hadd He). simpl. lia.
    + rewrite (run_store_unset σ a info category Hu). simpl. lia.
  - destruct (truthy (user_id a)) eqn:Hu.
    + destruct (mem0_delete_all (user_id a) σ) as [[x|e] σ'] eqn:Hdel.
      * rewrite (run_wipe_returns σ σ' a x Hu Hdel). simpl. lia.
      * destruct (is_exception e) eqn:He.
        -- rewrite (run_wipe_raises σ σ' a e Hu Hdel He). simpl. lia.
        -- rewrite (run_wipe_escapes σ σ' a e Hu Hdel He). simpl. lia.
    + rewrite (run_wipe_unset σ a Hu). simpl. lia.
  - destruct (run_on_exit_summary σ a) as (_ & _ & _ & -> & _). lia.
Qed.

Lemma perform_cache (i : invocation) (a : agent) (σ : St) (fact : string) :
  i <> Enter ->
  In fact (memories (self_after (perform lower repr i a σ))) ->
  In fact (memories a) \/ exists category, i = Store fact category.
Proof.
  intros Hi. destruct i as [|info category| |]; [done| | |]; unfold perform, answered;
    cbn [self_after].
  - destruct (truthy (user_id a)) eqn:Hu.
    + destruct (mem0_add (fact_message info) (user_id a) (Some "v2") σ) as [[x|e] σ'] eqn:Hadd.
      * rewrite (run_store_returns σ σ' a info category x Hu Hadd). simpl.
        rewrite in_app_iff. simpl. intros [?|[<-|[]]]; eauto.
      * destruct (is_exception e) eqn:He.
        -- rewrite (run_store_raises σ σ' a info category e Hu Hadd He). simpl. auto.
        -- rewrite (run_store_escapes σ σ' a info category e Hu Hadd He). simpl. auto.
    + rewrite (run_store_unset σ a info category Hu). simpl. auto.
  - destruct (truthy (user_id a)) eqn:Hu.
    + destruct (mem0_delete_all (user_id a) σ) as [[x|e] σ'] eqn:Hdel.
      * rewrite (run_wipe_returns σ σ' a x Hu Hdel). simpl. done.
      * destruct (is_exception e) eqn:He.
        -- rewrite (run_wipe_raises σ σ' a e Hu Hdel He). simpl. auto.
        -- rewrite (run_wipe_escapes σ σ' a e Hu Hdel He). simpl. auto.
    + rewrite (run_wipe_unset σ a Hu). simpl. auto.
  - destruct (run_on_exit_summary σ a) as (_ & _ & -> & _). auto.
Qed.

(** X13. In a session the session object is handed exactly one greeting
    for each call of [on_enter] that returns, on every path of [on_enter],
    and nothing by an [on_enter] that passes on what [get_all] raised, by
    the tools or by [on_exit]. *)
Theorem one_greeting_per_on_enter (invs : list invocation) (a : agent) (σ : St) :
  let t := run_session lower repr invs a σ in
  length (session (agent_after t))
  = length (session a)
    + length (List.filter (fun p => is_enter p.1 && is_returned p.2) (zip invs (answers t))).
Proof.
  revert a σ. induction invs as [|i invs IH]; intros a σ; cbv zeta; [simpl; lia|].
  cbn [run_session answers agent_after zip zip_with List.filter fst snd].
  specialize (IH (self_after (perform lower repr i a σ)) (store_after (perform lower repr i a σ))).
  cbv zeta in IH. rewrite IH, perform_speaks.
  destruct (is_enter i && is_returned (returned (perform lower repr i a σ))); simpl; lia.
Qed.

(** X14. In a session without [on_enter], every fact in the cache at the
    end was in the cache at the start or is the [info] of one of the
    [store_important_info] calls. *)
Theorem cache_holds_only_given_facts
    (invs : list invocation) (a : agent) (σ : St) (fact : string) :
  Forall (fun i => i <> Enter) invs ->
  In fact (memories (agent_after (run_session lower repr invs a σ))) ->
  In fact (memories a) \/ exists category, In (Store fact category) invs.
Proof.
  intros Hinvs. revert a σ. induction Hinvs as [|i invs Hi _ IH]; intros a σ; simpl; [auto|].
  intros Hin. destruct (IH _ _ Hin) as [Hbefore|(category & Hstore)]; [|eauto].
  destruct (perform_cache i a σ fact Hi Hbefore) as [?|(category & ->)]; eauto.
Qed.

End Calls.

(** ** Tool calls in flight: failures and wipes *)

Section Races.
Variable repr : list dict -> string.

Lemma call_store_settles (l : Loop.loop) (info category : string) :
  truthy (user_id (Loop.self l)) = true ->
  exists s t,
    Loop.step l (Loop.Call (store_important_info repr info category))
    = Loop.Loop s (Loop.tasks l ++ [t])
        (Loop.issued l ++ [Add (fact_message info) (user_id (Loop.self l)) (Some "v2")]) /\
    settles_store info t /\
    memories s = memories (Loop.self l) /\ user_id s = user_id (Loop.self l).
Proof.
  intros Hu. unfold Loop.step, store_important_info, try_except, bind, read. cbn.
  rewrite Hu. cbn. eexists _, _. split; [reflexivity|]. split; [|done].
  eexists _, _. split; [reflexivity|]. split; [intros x s; cbn; eauto|].
  intros e s. cbn. destruct (is_exception e); cbn; eauto.
Qed.

Lemma stores_issued (invs : list (string * string)) (l : Loop.loop) :
  truthy (user_id (Loop.self l)) = true ->
  let l' := Loop.exec (map (fun inv => Loop.Call (store_important_info repr inv.1 inv.2)) invs) l in
  memories (Loop.self l') = memories (Loop.self l) /\
  exists ts, Loop.tasks l' = Loop.tasks l ++ ts /\
             Forall2 (fun inv t => settles_store inv.1 t) invs ts.
Proof.
  revert l. induction invs as [|inv invs IH]; intros l Hu; cbv zeta.
  - simpl. split; [done|]. exists []. by rewrite app_nil_r.
  - destruct (call_store_settles l inv.1 inv.2 Hu) as (s & t & Hstep & Ht & Hmem & Hid).
    unfold Loop.exec in *. rewrite map_cons. cbn [fold_left]. rewrite Hstep.
    match goal with |- context [fold_left _ _ ?l1] =>
      destruct (IH l1) as (Hmem' & ts & Htasks & Hts) end.
    { simpl. by rewrite Hid. }
    simpl in *. rewrite Hmem', Htasks, <- !app_assoc.
    split; [done|]. exists (t :: ts). split; [done|]. by constructor.
Qed.

Lemma replies_settle (invs : list (string * string))
    (replies : list (nat * outcome string)) (l : Loop.loop) :
  NoDup (map fst replies) ->
  (forall i, i ∈ map fst replies ->
     match Loop.tasks l !! i with
     | Some t => exists inv, invs !! i = Some inv /\ settles_store inv.1 t
     | None => invs !! i = None
     end) ->
  let l' := Loop.exec (map (fun r => Loop.Completes r.1 r.2) replies) l in
  memories (Loop.self l') = memories (Loop.self l) ++ omap (admitted invs) replies.
Proof.
  revert l. induction replies as [|[i o] replies IH]; intros l Hnodup Hinv; cbv zeta.
  - simpl. by rewrite app_nil_r.
  - change (omap (admitted invs) ((i, o) :: replies))
      with (match admitted invs (i, o) with
            | Some y => y :: omap (admitted invs) replies
            | None => omap (admitted invs) replies
            end).
    simpl in Hnodup. apply NoDup_cons in Hnodup as [Hi Hnodup].
    pose proof (Hinv i (list_elem_of_here _ _)) as Hthis.
    unfold Loop.exec in *. rewrite map_cons. cbn [fold_left fst snd].
    destruct (Loop.tasks l !! i) as [t|] eqn:Hlook.
    + destruct Hthis as (inv & Hfact & c & k & -> & Hret & Hraise).
      assert (exists s' r,
                 k o (Loop.self l) = Done r s' /\
                 memories s' = memories (Loop.self l)
                               ++ match admitted invs (i, o) with Some y => [y] | None => [] end)
        as (s' & r & Hrun & Hmem).
      { unfold admitted. simpl. rewrite Hfact. simpl. destruct o as [x|e].
        - destruct (Hret x (Loop.self l)) as (s' & text & ? & ? & _). eauto.
        - destruct (Hraise e (Loop.self l)) as (s' & r & ? & Hm & _).
          exists s', r. by rewrite Hm, app_nil_r. }
      assert (Loop.step l (Loop.Completes i o)
              = Loop.Loop s' (<[i := Loop.Finished r]> (Loop.tasks l)) (Loop.issued l))
        as Hstep.
      { unfold Loop.step. rewrite Hlook, Hrun. simpl. by rewrite app_nil_r. }
      rewrite Hstep.
      match goal with |- context [fold_left _ _ ?l1] => rewrite (IH l1 Hnodup) end.
      * simpl. rewrite Hmem, <- app_assoc. by destruct (admitted invs (i, o)).
      * intros j Hj. simpl. rewrite list_lookup_insert_ne by (intros ->; done).
        apply Hinv. by apply list_elem_of_further.
    + assert (Loop.step l (Loop.Completes i o) = l) as Hstep.
      { unfold Loop.step. by rewrite Hlook. }
      rewrite Hstep. unfold admitted at 1. simpl. rewrite Hthis. simpl.
      rewrite IH; [|done|]; [by destruct o|].
      intros j Hj. apply Hinv. by apply list_elem_of_further.
Qed.

(** X11. Tool calls issued one after the other and all in flight, each
    answered at most once, by a return or by a raise: whatever the
    order of the replies, the cache gains the facts whose [add] returned,
    in the order of their replies, and no fact whose [add] raised. *)
Theorem failed_adds_stay_out_of_cache
    (a : agent) (invs : list (string * string)) (replies : list (nat * outcome string)) :
  truthy (user_id a) = true ->
  NoDup (map fst replies) ->
  let l := Loop.exec
             (map (fun inv => Loop.Call (store_important_info repr inv.1 inv.2)) invs
              ++ map (fun r => Loop.Completes r.1 r.2) replies)
             (Loop.Loop a [] []) in
  memories (Loop.self l) = memories a ++ omap (admitted invs) replies.
Proof.
  intros Hu Hnodup l. subst l. unfold Loop.exec. rewrite fold_left_app.
  destruct (stores_issued invs (Loop.Loop a [] []) Hu) as (Hmem & ts & Htasks & Hts).
  unfold Loop.exec in *. simpl in Hmem, Htasks.
  pose proof (replies_settle invs replies) as Hsettle. unfold Loop.exec in Hsettle.
  rewrite Hsettle; [by rewrite Hmem|done|].
  intros i _. rewrite Htasks.
  destruct (ts !! i) as [t|] eqn:Hlook.
  - destruct (Forall2_lookup_r _ _ _ _ _ Hts Hlook) as (inv & Hinv & Ht). eauto.
  - apply Forall2_length in Hts. apply lookup_ge_None in Hlook.
    apply lookup_ge_None. lia.
Qed.

(** X12. A [store_important_info] in flight while [wipe_memories] runs:
    if the reply to the delete arrives first, the fact is appended to the
    cleared cache and stays there; if the reply to the add arrives first,
    the wipe clears it. Both requests have gone out, in the order of the
    calls. *)
Theorem store_in_flight_across_wipe (a : agent) (info category x y : string) :
  truthy (user_id a) = true ->
  let started := [Loop.Call (store_important_info repr info category); Loop.Call wipe_memories] in
  let wipe_first :=
    Loop.exec (started ++ [Loop.Completes 1 (Returns y); Loop.Completes 0 (Returns x)])
      (Loop.Loop a [] []) in
  let store_first :=
    Loop.exec (started ++ [Loop.Completes 0 (Returns x); Loop.Completes 1 (Returns y)])
      (Loop.Loop a [] []) in
  Loop.issued wipe_first
  = [Add (fact_message info) (user_id a) (Some "v2"); Delete_all (user_id a)] /\
  memories (Loop.self wipe_first) = [info] /\
  memories (Loop.self store_first) = [].
Proof.
  intros Hu. unfold Loop.exec, Loop.step, store_important_info, wipe_memories,
    try_except, bind, read. cbn. rewrite Hu. cbn. by rewrite Hu.
Qed.

End Races.

(** ** The further statements at work *)

Lemma unset_user_id_makes_no_request_witness :
  truthy (user_id nobody) = false /\
  returned (run (wipe_memories nobody) reliable)
  = Returns "I had trouble clearing my memories - no user identified".
Proof.
  split; [reflexivity|].
  destruct (unset_user_id_makes_no_request ascii_lower count_repr reliable nobody
              "likes Rome" "preferences" eq_refl) as (_ & (_ & _ & _ & Hret) & _).
  exact Hret.
Defined.

Lemma remote_failure_is_logged_witness :
  truthy (user_id ann) = true /\
  is_exception timed_out = true /\
  exists earlier,
    logger (self_after (run (wipe_memories ann) unreachable))
    = earlier ++ [(ERROR, "Error wiping memories for user ann: timed out");
                  (ERROR, "Full error details: {}")].
Proof.
  split; [reflexivity|]. split; [reflexivity|].
  exact (proj1 (proj2 (remote_failure_is_logged ascii_lower count_repr unreachable unreachable ann
                         "likes Rome" "preferences" timed_out eq_refl eq_refl)) eq_refl).
Defined.

Lemma empty_load_keeps_cache_witness :
  let a := Agent "ann" ["likes Rome"] [] [] in
  truthy (user_id a) = true /\
  memories (self_after (run (on_enter ascii_lower count_repr a) (holding []))) = ["likes Rome"].
Proof.
  intros a. split; [reflexivity|].
  exact (proj1 (proj2 (empty_load_keeps_cache ascii_lower count_repr (holding []) (holding []) a
                         eq_refl eq_refl))).
Defined.

Lemma load_replaces_cache_witness :
  let a := Agent "ann" ["likes Rome"] [] [] in
  let records : list dict :=
    [ {[ "memory" := "book a cruise" ]}; {[ "id" := "7" ]}; {[ "memory" := "window seat" ]} ] in
  truthy (user_id a) = true /\
  records <> [] /\
  memories (self_after (run (on_enter ascii_lower count_repr a) (holding records)))
  = ["book a cruise"; "window seat"].
Proof.
  intros a records.
  assert (records <> []) as Hne by done.
  split; [reflexivity|]. split; [exact Hne|].
  exact (proj1 (load_replaces_cache ascii_lower count_repr (holding records) (holding records)
                  a records eq_refl eq_refl Hne)).
Defined.

Lemma keeping_add_returns : @add_always_returns keeping keeping_client.
Proof. intros m u v σ. by eexists _, _. Qed.

Lemma stored_facts_are_sent_twice_witness :
  truthy (user_id ann) = true /\
  memories (agent_after
    (run_session ascii_lower count_repr
       (map (fun f => Store f.1 f.2) [("book a cruise", "travel_planning"); ("window seat", "preferences")]
        ++ [Exit])
       ann (Keeping [])))
  = ["book a cruise"; "window seat"].
Proof.
  split; [reflexivity|].
  exact (proj1 (stored_facts_are_sent_twice ascii_lower count_repr
                  [("book a cruise", "travel_planning"); ("window seat", "preferences")]
                  ann (Keeping []) keeping_add_returns eq_refl)).
Defined.

Lemma failed_adds_stay_out_of_cache_witness :
  truthy (user_id ann) = true /\
  NoDup (map fst [(1, Raises timed_out); (2, Returns "ok"); (0, Returns "ok")]) /\
  memories (Loop.self (Loop.exec
    (map (fun inv => Loop.Call (store_important_info count_repr inv.1 inv.2))
       [("F1", "preferences"); ("F2", "requirements"); ("F3", "travel_planning")]
     ++ map (fun r => Loop.Completes r.1 r.2)
          [(1, Raises timed_out); (2, Returns "ok"); (0, Returns "ok")])
    (Loop.Loop ann [] [])))
  = ["F3"; "F1"].
Proof.
  assert (NoDup (map fst [(1, @Raises string timed_out); (2, Returns "ok"); (0, Returns "ok")]))
    as Hnodup by compute_done.
  split; [reflexivity|]. split; [exact Hnodup|].
  exact (failed_adds_stay_out_of_cache count_repr ann
           [("F1", "preferences"); ("F2", "requirements"); ("F3", "travel_planning")]
           [(1, Raises timed_out); (2, Returns "ok"); (0, Returns "ok")] eq_refl Hnodup).
Defined.

Lemma store_in_flight_across_wipe_witness :
  truthy (user_id ann) = true /\
  memories (Loop.self (Loop.exec
    ([Loop.Call (store_important_info count_repr "likes Rome" "preferences");
      Loop.Call wipe_memories]
     ++ [Loop.Completes 1 (Returns "ok"); Loop.Completes 0 (Returns "ok")])
    (Loop.Loop ann [] [])))
  = ["likes Rome"].
Proof.
  split; [reflexivity|].
  exact (proj1 (proj2 (store_in_flight_across_wipe count_repr ann "likes Rome" "preferences"
                         "ok" "ok" eq_refl))).
Defined.

Lemma cache_holds_only_given_facts_witness :
  let invs := [Store "window seat" "preferences"; Wipe; Exit] in
  let a := Agent "ann" ["likes Rome"] [] [] in
  Forall (fun i => i <> Enter) invs /\
  In "likes Rome" (memories (agent_after (run_session ascii_lower count_repr invs a unreachable))) /\
  (In "likes Rome" (memories a) \/ exists category, In (Store "likes Rome" category) invs).
Proof.
  intros invs a.
  assert (Forall (fun i => i <> Enter) invs) as Hinvs by (repeat constructor; discriminate).
  assert (In "likes Rome"
            (memories (agent_after (run_session ascii_lower count_repr invs a unreachable))))
    as Hin by (vm_compute; auto).
  split; [exact Hinvs|]. split; [exact Hin|].
  exact (cache_holds_only_given_facts ascii_lower count_repr invs a unreachable "likes Rome"
           Hinvs Hin).
Defined.
